(** * make-your-own-tea : the virtual-DOM runtime, embedded in Rocq

    The development follows the final listing of the tutorial (events,
    attributes, build, hydrate, patch, the two [runProgram] entry points
    and the name-collector application), and the earlier listing checked
    in as [src/index.ts] where the two differ (module [Earlier]).

    The DOM is the host.  It is modelled by a small explicit structure:
    a live tree of elements and text nodes, a counter that gives every
    listener closure its identity, and a log of the mutating host calls
    (a write-counting double).  Exceptions raised by JavaScript itself
    ([undefined.kind], [text.setAttribute], ...) and by the host for
    misuse that only depends on the arguments ([classList.add("")],
    [text.appendChild]) are results of the model.  Attribute names are
    taken verbatim: they are assumed to be valid, lower-case names, so
    that [el.setAttribute] itself never throws; properties are kept
    apart from attributes and do not reflect into them.

    A view is a value here.  What the source pushes on the
    [_eventListeners] of a view object comes back as part of the result
    of the function that pushed it; every position of a view stands for
    an object of its own. *)

From stdpp Require Import base list strings gmap.
From Stdlib Require Import Ascii Lia.

Set Warnings "-register-all".
Open Scope string_scope.
Open Scope list_scope.

(** ** Host: exceptions, host calls, the world *)

Inductive Exn :=
| TypeError
| HierarchyRequestError
| SyntaxError
| InvalidCharacterError.

(** A JavaScript value of type [string | boolean]. *)
Inductive Value :=
| VString (s : string)
| VBoolean (b : bool).

(** [a !== b] on [string | boolean]: no coercion, so kind and content. *)
Definition value_eqb (a b : Value) : bool :=
  match a, b with
  | VString s, VString s' => String.eqb s s'
  | VBoolean x, VBoolean y => Bool.eqb x y
  | _, _ => false
  end.

(** Mutating calls into the host, in the order they were made. *)
Inductive HostCall :=
| CreateElement (tagName : string)
| CreateTextNode (data : string)
| AddEventListener (type : string) (callback : nat)
| RemoveEventListener (type : string) (callback : nat)
| AppendChild
| ReplaceWith
| RemoveChild (index : nat)
| SetAttribute (k v : string)
| RemoveAttribute (k : string)
| SetProperty (k : string) (v : Value)
| ClassListAdd (tokens : list string)
| ClassListRemove (token : string)
| ReplaceChildren.

Inductive ConsoleLine :=
| ConsoleError (text : string)
| ConsoleLog (text : string)
| ConsoleLogStatus (replaced patched removed added : nat).

Record World := mkWorld {
  nextClosure : nat;            (* identity of the next closure created *)
  calls : list HostCall;        (* host calls, oldest first *)
  console : list ConsoleLine;   (* console output, oldest first *)
}.

Inductive Result (A : Type) :=
| Ok (a : A) (w : World)
| Throw (e : Exn).
Arguments Ok {A} a w.
Arguments Throw {A} e.

(** Computations over the world that may throw. *)
Definition M (A : Type) : Type := World -> Result A.

Definition ret {A} (a : A) : M A := fun w => Ok a w.
Definition throw {A} (e : Exn) : M A := fun _ => Throw e.
Definition bind {A B} (c : M A) (k : A -> M B) : M B :=
  fun w => match c w with
           | Ok a w' => k a w'
           | Throw e => Throw e
           end.

Notation "'let*' p ':=' c 'in' k" := (bind c (fun p => k))
  (at level 10, p pattern, c at level 200, k at level 200, only parsing).
Notation "c ;;; k" := (bind c (fun _ => k))
  (at level 100, right associativity, only parsing).

Definition call (c : HostCall) : M unit :=
  fun w => Ok tt (mkWorld (nextClosure w) (calls w ++ [c]) (console w)).

Definition console_write (l : ConsoleLine) : M unit :=
  fun w => Ok tt (mkWorld (nextClosure w) (calls w) (console w ++ [l])).

(** Creating a closure: a fresh identity. *)
Definition closure : M nat :=
  fun w => Ok (nextClosure w) (mkWorld (S (nextClosure w)) (calls w) (console w)).

(** [for (const x of xs) body], the loop state threaded through. *)
Fixpoint for_of {A S} (xs : list A) (body : A -> S -> M S) (s : S) : M S :=
  match xs with
  | [] => ret s
  | x :: rest => let* s' := body x s in for_of rest body s'
  end.

(** The report of a patch. *)
Record PatchStatus := mkStatus {
  replaced : nat;
  patched : nat;
  removed : nat;
  added : nat;
}.

Section Tea.

Variables NativeEvent message appModel : Type.

(** ** The description: events, attributes, the AST *)

Record Event := mkEvent {
  name : string;
  messageConverter : NativeEvent -> message;
}.

Definition on (eventName : string) (listener : NativeEvent -> message) : Event :=
  {| name := eventName; messageConverter := listener |}.

Inductive Attribute :=
| StringAttribute (key : string) (value : string)
| BooleanAttribute (key : string) (value : bool).

Definition key (a : Attribute) : string :=
  match a with
  | StringAttribute k _ => k
  | BooleanAttribute k _ => k
  end.

Definition value (a : Attribute) : Value :=
  match a with
  | StringAttribute _ v => VString v
  | BooleanAttribute _ v => VBoolean v
  end.

Definition attribute (key : string) (value : Value) : Attribute :=
  match value with
  | VString s => StringAttribute key s
  | VBoolean b => BooleanAttribute key b
  end.

Inductive Tag := TagDiv | TagH1 | TagButton | TagInput.

Definition Tag_eqb (a b : Tag) : bool :=
  match a, b with
  | TagDiv, TagDiv | TagH1, TagH1 | TagButton, TagButton | TagInput, TagInput => true
  | _, _ => false
  end.

(** One entry of [_eventListeners]: the descriptor and the closure that
    was registered for it. *)
Record Registration := mkRegistration {
  event : Event;
  listener : nat;
}.

Inductive Html :=
| Node (tag : Tag) (children : list Html) (events : list Event)
       (_eventListeners : list Registration) (attributes : list Attribute)
| Text (content : string).

Definition node (tag : Tag) (children : list Html) (events : list Event)
    (attributes : list Attribute) : Html :=
  Node tag children events [] attributes.

Definition div children events attributes := node TagDiv children events attributes.
Definition h1 children events attributes := node TagH1 children events attributes.
Definition button children events attributes := node TagButton children events attributes.
Definition input children events attributes := node TagInput children events attributes.
Definition text (content : string) : Html := Text content.

(** ** The live tree *)

(** A listener as the host holds it: event type, the closure, the
    [once] option, and what the closure does when called (it sends
    [messageConverter data] of this descriptor). *)
Record Listener := mkListener {
  l_type : string;
  l_callback : nat;
  l_once : bool;
  l_event : Event;
}.

Inductive Tree :=
| HTMLElement (tagName : string)
              (attrs : gmap string string)
              (props : gmap string Value)
              (classList : list string)
              (listeners : list Listener)
              (childNodes : list Tree)
| TextNode (data : string) (listeners : list Listener).

Definition childNodes (t : Tree) : list Tree :=
  match t with
  | HTMLElement _ _ _ _ _ cs => cs
  | TextNode _ _ => []
  end.

Definition listeners (t : Tree) : list Listener :=
  match t with
  | HTMLElement _ _ _ _ ls _ => ls
  | TextNode _ ls => ls
  end.

Definition set_childNodes (cs : list Tree) (t : Tree) : Tree :=
  match t with
  | HTMLElement tn a p c ls _ => HTMLElement tn a p c ls cs
  | TextNode _ _ => t
  end.

Definition set_listeners (ls : list Listener) (t : Tree) : Tree :=
  match t with
  | HTMLElement tn a p c _ cs => HTMLElement tn a p c ls cs
  | TextNode d _ => TextNode d ls
  end.

(** [document.createElement(tag)]: HTML elements report their tag name
    in upper case. *)
Definition tagName_of (t : Tag) : string :=
  match t with
  | TagDiv => "DIV"
  | TagH1 => "H1"
  | TagButton => "BUTTON"
  | TagInput => "INPUT"
  end.

Definition createElement (t : Tag) : M Tree :=
  call (CreateElement (tagName_of t)) ;;;
  ret (HTMLElement (tagName_of t) ∅ ∅ [] [] []).

Definition createTextNode (data : string) : M Tree :=
  call (CreateTextNode data) ;;;
  ret (TextNode data []).

(** [target.addEventListener(type, callback, { once: true })]; elements
    and text nodes are both event targets. *)
Definition addEventListener (t : Tree) (type : string) (callback : nat)
    (ev : Event) : M Tree :=
  call (AddEventListener type callback) ;;;
  ret (set_listeners (listeners t ++ [mkListener type callback true ev]) t).

Definition same_listener (type : string) (callback : nat) (l : Listener) : bool :=
  String.eqb (l_type l) type && Nat.eqb (l_callback l) callback.

Definition removeEventListener (t : Tree) (type : string) (callback : nat) : M Tree :=
  call (RemoveEventListener type callback) ;;;
  ret (set_listeners
         (List.filter (fun l => negb (same_listener type callback l)) (listeners t)) t).

(** [parent.appendChild(child)]: a text node cannot have children. *)
Definition appendChild (parent child : Tree) : M Tree :=
  match parent with
  | HTMLElement _ _ _ _ _ cs => call AppendChild ;;; ret (set_childNodes (cs ++ [child]) parent)
  | TextNode _ _ => throw HierarchyRequestError
  end.

(** [parent.removeChild(parent.childNodes[i])]. *)
Definition removeChild (parent : Tree) (i : nat) : M Tree :=
  match childNodes parent !! i with
  | Some _ => call (RemoveChild i) ;;; ret (set_childNodes (delete i (childNodes parent)) parent)
  | None => throw TypeError
  end.

(** [el.setAttribute], [el.getAttribute], [el.removeAttribute], and
    the assignment [el[key] = value].  The class attribute is held as
    the token list [classList]; removing it empties the list. *)
Definition el_setAttribute (t : Tree) (k v : string) : M Tree :=
  match t with
  | HTMLElement tn a p c ls cs =>
      call (SetAttribute k v) ;;; ret (HTMLElement tn (<[k := v]> a) p c ls cs)
  | TextNode _ _ => throw TypeError
  end.

Definition el_getAttribute (t : Tree) (k : string) : M (option string) :=
  match t with
  | HTMLElement _ a _ _ _ _ => ret (a !! k)
  | TextNode _ _ => throw TypeError
  end.

Definition el_removeAttribute (t : Tree) (k : string) : M Tree :=
  match t with
  | HTMLElement tn a p c ls cs =>
      call (RemoveAttribute k) ;;;
      ret (HTMLElement tn (delete k a) p (if String.eqb k "class" then [] else c) ls cs)
  | TextNode _ _ => throw TypeError
  end.

Definition el_setProperty (t : Tree) (k : string) (v : Value) : M Tree :=
  match t with
  | HTMLElement tn a p c ls cs =>
      call (SetProperty k v) ;;; ret (HTMLElement tn a (<[k := v]> p) c ls cs)
  | TextNode d ls => throw TypeError
  end.

(** [s.split(" ")]. *)
Fixpoint split (sep : ascii) (s : string) : list string :=
  match s with
  | EmptyString => [EmptyString]
  | String c rest =>
      if Ascii.eqb c sep then EmptyString :: split sep rest
      else match split sep rest with
           | piece :: pieces => String c piece :: pieces
           | [] => [String c EmptyString]
           end
  end.

(** [xs.includes(x)] on strings. *)
Definition includes (xs : list string) (x : string) : bool :=
  existsb (String.eqb x) xs.

Definition ascii_whitespace (c : ascii) : bool :=
  let n := nat_of_ascii c in
  Nat.eqb n 9 || Nat.eqb n 10 || Nat.eqb n 12 || Nat.eqb n 13 || Nat.eqb n 32.

Fixpoint has_whitespace (s : string) : bool :=
  match s with
  | EmptyString => false
  | String c rest => ascii_whitespace c || has_whitespace rest
  end.

(** The validation [DOMTokenList.add] runs over its arguments before it
    changes anything. *)
Fixpoint validate_tokens (tokens : list string) : option Exn :=
  match tokens with
  | [] => None
  | token :: rest =>
      if String.eqb token "" then Some SyntaxError
      else if has_whitespace token then Some InvalidCharacterError
      else validate_tokens rest
  end.

Fixpoint add_tokens (tokens : list string) (set : list string) : list string :=
  match tokens with
  | [] => set
  | token :: rest => add_tokens rest (if includes set token then set else set ++ [token])
  end.

Definition classList_add (t : Tree) (tokens : list string) : M Tree :=
  match t with
  | HTMLElement tn a p c ls cs =>
      match validate_tokens tokens with
      | Some e => throw e
      | None => call (ClassListAdd tokens) ;;;
                ret (HTMLElement tn a p (add_tokens tokens c) ls cs)
      end
  | TextNode _ _ => throw TypeError
  end.

Definition classList_remove (t : Tree) (token : string) : M Tree :=
  match t with
  | HTMLElement tn a p c ls cs =>
      call (ClassListRemove token) ;;;
      ret (HTMLElement tn a p (List.filter (fun x => negb (String.eqb x token)) c) ls cs)
  | TextNode _ _ => throw TypeError
  end.

Definition classList_of (t : Tree) : list string :=
  match t with
  | HTMLElement _ _ _ c _ _ => c
  | TextNode _ _ => []
  end.

Definition attrs_of (t : Tree) : gmap string string :=
  match t with
  | HTMLElement _ a _ _ _ _ => a
  | TextNode _ _ => ∅
  end.

(** ** Attributes and properties *)

Definition isProperty (tag key : string) : bool :=
  if String.eqb tag "INPUT" then
    String.eqb key "checked" || String.eqb key "indeterminate" ||
    String.eqb key "value" || String.eqb key "readonly" || String.eqb key "disabled"
  else if String.eqb tag "OPTION" then
    String.eqb key "selected" || String.eqb key "disabled"
  else if String.eqb tag "TEXTAREA" then
    String.eqb key "value" || String.eqb key "readonly" || String.eqb key "disabled"
  else if String.eqb tag "SELECT" then
    String.eqb key "value" || String.eqb key "disabled"
  else if String.eqb tag "BUTTON" || String.eqb tag "OPTGROUP" then
    String.eqb key "disabled"
  else false.

(** [for (const class_ of currentTree.classList)]: the iterator walks the
    live token list by index, so a removal moves the following token
    under the index that has just been visited.  At most one step per
    token of the list the loop starts with: that length is [steps]. *)
Fixpoint prune_classes (steps index : nat) (classes : list string) (t : Tree) : M Tree :=
  match steps with
  | 0 => ret t
  | S steps' =>
      match classList_of t !! index with
      | None => ret t
      | Some class_ =>
          if negb (includes classes class_) then
            let* t' := classList_remove t class_ in
            prune_classes steps' (S index) classes t'
          else prune_classes steps' (S index) classes t
      end
  end.

Definition setAttribute (currentTree : Tree) (attribute : Attribute) : M Tree :=
  match currentTree with
  | TextNode _ _ =>
      (* no [classList], no [setAttribute], no [getAttribute] on a text node *)
      throw TypeError
  | HTMLElement tagName _ _ _ _ _ =>
      if String.eqb (key attribute) "class" then
        match attribute with
        | BooleanAttribute _ _ => throw TypeError   (* [true.split] is not a function *)
        | StringAttribute _ v =>
            let classes := split " " v in
            let* t := classList_add currentTree classes in
            prune_classes (length (classList_of t)) 0 classes t
        end
      else if isProperty tagName (key attribute) then
        el_setProperty currentTree (key attribute) (value attribute)
      else
        match attribute with
        | BooleanAttribute k v =>
            if v then el_setAttribute currentTree k k
            else
              let* current := el_getAttribute currentTree k in
              match current with
              | Some s => if String.eqb s k then el_removeAttribute currentTree k
                          else ret currentTree
              | None => ret currentTree
              end
        | StringAttribute k v => el_setAttribute currentTree k v
        end
  end.

(** ** Building *)

(** The body of the loop over event descriptors, the same in
    [buildTree], [hydrate] and [patchEvents]: make the closure, register
    it once-only on the target, push the pair on [_eventListeners].
    The dispatch function [listener] that the source passes down to
    these functions occurs only inside the closures; a closure is held
    as its number and its descriptor, and calling one is not part of
    the model (the closure [hydrate] makes also logs a line when it is
    called), so that parameter is not carried. *)
Definition subscribe (ev : Event) (s : Tree * list Registration)
    : M (Tree * list Registration) :=
  let* eventListener := closure in
  let* target := addEventListener (fst s) (name ev) eventListener ev in
  ret (target, snd s ++ [mkRegistration ev eventListener]).

(** [for (const child of html.children) node.appendChild(buildTree(listener, child))];
    [build] is the recursive call.  The children come back with what
    building pushed on their [_eventListeners]. *)
Fixpoint build_children (build : Html -> M (Html * Tree)) (children : list Html)
    (node : Tree) : M (list Html * Tree) :=
  match children with
  | [] => ret ([], node)
  | child :: rest =>
      let* (child, built) := build child in
      let* node := appendChild node built in
      let* (rest, node) := build_children build rest node in
      ret (child :: rest, node)
  end.

Fixpoint buildTree (html : Html) : M (Html * Tree) :=
  match html with
  | Node tag children events registered attributes =>
      let* node := createElement tag in
      let* (node, registered) := for_of events subscribe (node, registered) in
      let* (children, node) := build_children buildTree children node in
      let* node := for_of attributes (fun a n => setAttribute n a) node in
      ret (Node tag children events registered attributes, node)
  | Text content =>
      let* t := createTextNode content in
      ret (html, t)
  end.

(** ** Hydration *)

Definition set_child (i : nat) (child : Tree) (parent : Tree) : Tree :=
  set_childNodes (<[i := child]> (childNodes parent)) parent.

Definition set_children (cs : list Html) (html : Html) : Html :=
  match html with
  | Node tag _ events registered attributes => Node tag cs events registered attributes
  | Text _ => html
  end.

(** [for (let i = 0; i < nextView.children.length; i++)] of [hydrate];
    [rest] are the children from index [i] on, [hydrate] is the
    recursive call.  [childNode && childNode.ELEMENT_NODE]: the constant
    [ELEMENT_NODE] is 1 on every DOM node, so the test is whether
    [childNodes[i]] exists.  A child that is hydrated is changed in
    place. *)
Fixpoint hydrate_children (hydrate : Html -> Tree -> M (Html * Tree)) (i : nat)
    (rest : list Html) (currentTree : Tree) : M (list Html * Tree) :=
  match rest with
  | [] => ret ([], currentTree)
  | child :: rest =>
      let childNode := childNodes currentTree !! i in
      let* (child, currentTree) :=
        match childNode with
        | Some childNode =>
            let* (child, childNode) := hydrate child childNode in
            ret (child, set_child i childNode currentTree)
        | None => ret (child, currentTree)
        end in
      let* (rest, currentTree) := hydrate_children hydrate (S i) rest currentTree in
      ret (child :: rest, currentTree)
  end.

Fixpoint hydrate (nextView : Html) (currentTree : Tree) : M (Html * Tree) :=
  match nextView with
  | Text _ => ret (nextView, currentTree)
  | Node tag children events registered attributes =>
      let* (currentTree, registered) :=
        for_of events subscribe (currentTree, registered) in
      let* (children, currentTree) :=
        hydrate_children hydrate 0 children currentTree in
      ret (Node tag children events registered attributes, currentTree)
  end.

(** ** Patching *)

Definition patchEvents (previousView nextView : Html) (currentTree : Tree)
    : M (Html * Tree) :=
  let* currentTree :=
    match previousView with
    | Node _ _ _ registered _ =>
        for_of registered
          (fun r t => removeEventListener t (name (event r)) (listener r))
          currentTree
    | Text _ => ret currentTree
    end in
  match nextView with
  | Node tag children events registered attributes =>
      let* (currentTree, registered) :=
        for_of events subscribe (currentTree, registered) in
      ret (Node tag children events registered attributes, currentTree)
  | Text _ => ret (nextView, currentTree)
  end.

(** The inner loop of [patchAttributes]: the first previous attribute
    with the key of [nextAttribute] decides, then [break]. *)
Fixpoint patch_against (previousAttributes : list Attribute) (nextAttribute : Attribute)
    (currentTree : Tree) : M Tree :=
  match previousAttributes with
  | [] => ret currentTree
  | previousAttribute :: rest =>
      if String.eqb (key nextAttribute) (key previousAttribute) then
        if negb (value_eqb (value nextAttribute) (value previousAttribute))
        then setAttribute currentTree nextAttribute
        else ret currentTree
      else patch_against rest nextAttribute currentTree
  end.

Definition patchAttributes (previousView nextView : Html) (currentTree : Tree)
    : M Tree :=
  match nextView with
  | Text _ => ret currentTree
  | Node _ _ _ _ nextAttributes =>
      match previousView with
      | Node _ _ _ _ previousAttributes =>
          let previousAttributeKeys := map key previousAttributes in
          let nextAttributeKeys := map key nextAttributes in
          let* currentTree :=
            for_of nextAttributes
              (fun nextAttribute t =>
                 if includes previousAttributeKeys (key nextAttribute)
                 then patch_against previousAttributes nextAttribute t
                 else setAttribute t nextAttribute)
              currentTree in
          for_of previousAttributes
            (fun previousAttribute t =>
               let hasAttributeBeenSeen :=
                 includes nextAttributeKeys (key previousAttribute) in
               if negb hasAttributeBeenSeen
               then el_removeAttribute t (key previousAttribute)
               else ret t)
            currentTree
      | Text _ => for_of nextAttributes (fun a t => setAttribute t a) currentTree
      end
  end.

(** What a call of [patch] leaves behind: [nextView] with the
    registrations pushed on it, the node that was passed in, the node
    given to [currentTree.replaceWith] when that was called (the parent,
    if there is one, then holds it in the place of [currentTree]), and
    the report. *)
Record Patched := mkPatched {
  p_nextView : Html;
  p_currentTree : Tree;
  p_replacement : option Tree;
  p_status : PatchStatus;
}.

(** The node in the place of [currentTree] under its parent. *)
Definition in_place (p : Patched) : Tree :=
  match p_replacement p with
  | Some t => t
  | None => p_currentTree p
  end.

(** [currentTree.replaceWith(buildTree(listener, nextView));
     return { ...status, replaced: 1 }]. *)
Definition replace_with_built (nextView : Html) (currentTree : Tree) : M Patched :=
  let* (nextView, built) := buildTree nextView in
  call ReplaceWith ;;;
  ret (mkPatched nextView currentTree (Some built) (mkStatus 1 0 0 0)).

Definition add_status (status child : PatchStatus) : PatchStatus :=
  mkStatus (replaced status + replaced child) (patched status + patched child)
           (removed status + removed child) (added status + added child).

(** [for (let i = childNodes.length - 1; i > nextLength - 1; i--)]
    removes [childNodes[i]].  The counter is kept as [i + 1], a natural
    number also when [i] is -1; the test is the one of the source, over
    the integers. *)
Fixpoint remove_excess (i_plus_1 nextLength : nat) (currentTree : Tree)
    (status : PatchStatus) : M (Tree * PatchStatus) :=
  match i_plus_1 with
  | 0 => ret (currentTree, status)
  | S i =>
      if (Z.of_nat nextLength - 1 <? Z.of_nat i)%Z then
        let* currentTree := removeChild currentTree i in
        remove_excess i nextLength currentTree
          (mkStatus (replaced status) (patched status) (S (removed status)) (added status))
      else ret (currentTree, status)
  end.

(** [for (let i = 0; i < nextView.children.length; i++)] of [patch];
    [rest] are the next children from index [i] on, [patch] is the
    recursive call.  [currentChild.ELEMENT_NODE || currentChild.TEXT_NODE]
    holds of every DOM node (the constants are 1 and 3), so an existing
    child is always patched.  [previousView.children[i]] may be
    [undefined]; [patch] then fails on [previousView.kind]. *)
Fixpoint patch_children (patch : Html -> Html -> Tree -> M Patched)
    (previousChildren : list Html) (i : nat) (rest : list Html)
    (currentTree : Tree) (status : PatchStatus)
    : M (list Html * Tree * PatchStatus) :=
  match rest with
  | [] => ret ([], currentTree, status)
  | nextChild :: rest =>
      let previousChild := previousChildren !! i in
      let currentChild := childNodes currentTree !! i in
      let* (nextChild, currentTree, status) :=
        match currentChild with
        | None =>
            let* (nextChild, built) := buildTree nextChild in
            let* currentTree := appendChild currentTree built in
            ret (nextChild, currentTree,
                 mkStatus (replaced status) (patched status)
                          (removed status) (S (added status)))
        | Some currentChild =>
            match previousChild with
            | None => throw TypeError
            | Some previousChild =>
                let* childPatched := patch previousChild nextChild currentChild in
                ret (p_nextView childPatched,
                     set_child i (in_place childPatched) currentTree,
                     add_status status (p_status childPatched))
            end
        end in
      let* (rest, currentTree, status) :=
        patch_children patch previousChildren (S i) rest currentTree status in
      ret (nextChild :: rest, currentTree, status)
  end.

Fixpoint patch (previousView nextView : Html) (currentTree : Tree) {struct nextView}
    : M Patched :=
  match previousView, nextView with
  | Text previousContent, Text nextContent =>
      if String.eqb previousContent nextContent
      then ret (mkPatched nextView currentTree None (mkStatus 0 0 0 0))
      else replace_with_built nextView currentTree
  | Node previousTag previousChildren _ _ _, Node nextTag nextChildren _ _ _ =>
      if negb (Tag_eqb previousTag nextTag) then replace_with_built nextView currentTree
      else
        let* (patchedView, currentTree) := patchEvents previousView nextView currentTree in
        let* currentTree := patchAttributes previousView nextView currentTree in
        let* (children, currentTree, status) :=
          patch_children patch previousChildren 0 nextChildren currentTree
                         (mkStatus 0 0 0 0) in
        let* (currentTree, status) :=
          remove_excess (length (childNodes currentTree)) (length nextChildren)
                        currentTree status in
        ret (mkPatched (set_children children patchedView) currentTree None
               (mkStatus (replaced status) (S (patched status))
                         (removed status) (added status)))
  | _, _ =>
      (* previousView.kind !== nextView.kind *)
      replace_with_built nextView currentTree
  end.

(** ** The dispatch loop *)

(** [update] may keep [send] for later (the application does, under
    [setTimeout]); the sends it defers are returned as data, delay and
    message.  A model is a value: [update] returns one, it does not
    change the one it was given. *)
Record Program := mkProgram {
  initialModel : appModel;
  update : message -> appModel -> appModel * list (nat * message);
  view : appModel -> Html;
}.

(** The variable [currentTree: Tree | null]; the hydrating entry point
    can also leave [undefined] in it ([root.children[0]] of a root
    without element children). *)
Inductive Ref :=
| null
| undefined
| object (t : Tree).

(** The variables the closure [listener] of a running program shares
    with its creator.  [displaced] is the node that took the place of
    [currentTree] in the document when [patch] replaced it at the top:
    the variable keeps the old node, which is then detached, and a later
    [replaceWith] on it does nothing.  [timers] are the pending deferred
    sends. *)
Record Runtime := mkRuntime {
  currentModel : appModel;
  previousView : Html;
  currentTree : Ref;
  displaced : option Tree;
  timers : list (nat * message);
}.

Record RunningProgram := mkRunningProgram {
  model : appModel;
  send : Runtime -> message -> M Runtime;
}.

(** [patch] on [undefined]: every path reads a member of [currentTree]
    ([replaceWith], or at the latest [childNodes.length] of the removal
    loop), except two text nodes with the same content. *)
Definition patch_undefined (previousView nextView : Html) : M PatchStatus :=
  match previousView, nextView with
  | Text previousContent, Text nextContent =>
      if String.eqb previousContent nextContent then ret (mkStatus 0 0 0 0)
      else throw TypeError
  | _, _ => throw TypeError
  end.

(** [hydrate] on [undefined]: [addEventListener] or [childNodes] is read
    as soon as there is an event or a child. *)
Definition hydrate_undefined (nextView : Html) : M unit :=
  match nextView with
  | Text _ => ret tt
  | Node _ [] [] _ _ => ret tt
  | Node _ _ _ _ _ => throw TypeError
  end.

Definition log_status (status : PatchStatus) : M unit :=
  console_write (ConsoleLog "Patching status:") ;;;
  console_write (ConsoleLogStatus (replaced status) (patched status)
                                  (removed status) (added status)).

(** The closure [listener] of [runProgram] and of
    [runProgramWithHydration] (the two are the same text). *)
Definition listener_of (program : Program) (rt : Runtime) (msg : message) : M Runtime :=
  match currentTree rt with
  | null => ret rt
  | undefined =>
      let (currentModel, deferred) := update program msg (currentModel rt) in
      let nextView := view program currentModel in
      let* status := patch_undefined (previousView rt) nextView in
      log_status status ;;;
      ret (mkRuntime currentModel nextView undefined (displaced rt)
                     (timers rt ++ deferred))
  | object tree =>
      let (currentModel, deferred) := update program msg (currentModel rt) in
      let nextView := view program currentModel in
      let* p := patch (previousView rt) nextView tree in
      log_status (p_status p) ;;;
      ret (mkRuntime currentModel (p_nextView p) (object (p_currentTree p))
                     (match displaced rt with
                      | Some d => Some d
                      | None => p_replacement p
                      end)
                     (timers rt ++ deferred))
  end.

Definition forgot_root : string :=
  "You forgot to define a <div id='root'></div> inside body".

(** [root] is what [document.getElementById("root")] finds: the child
    nodes of that element, or nothing. *)
Definition runProgram (program : Program) (root : option (list Tree))
    : M (RunningProgram * Runtime) :=
  let currentModel := initialModel program in
  let previousView := view program currentModel in
  match root with
  | Some _ =>
      let* (previousView, currentTree) := buildTree previousView in
      call ReplaceChildren ;;;
      ret (mkRunningProgram currentModel (listener_of program),
           mkRuntime currentModel previousView (object currentTree) None [])
  | None =>
      console_write (ConsoleError forgot_root) ;;;
      ret (mkRunningProgram currentModel (fun rt _ => ret rt),
           mkRuntime currentModel previousView null None [])
  end.

Definition is_element (t : Tree) : bool :=
  match t with
  | HTMLElement _ _ _ _ _ _ => true
  | TextNode _ _ => false
  end.

(** [root.children[0]]: the first child that is an element. *)
Definition first_element_child (cs : list Tree) : Ref :=
  match List.find is_element cs with
  | Some t => object t
  | None => undefined
  end.

Definition runProgramWithHydration (program : Program) (root : option (list Tree))
    : M (RunningProgram * Runtime) :=
  let currentModel := initialModel program in
  let previousView := view program currentModel in
  match root with
  | Some rootChildNodes =>
      match first_element_child rootChildNodes with
      | object currentTree =>
          let* (previousView, currentTree) := hydrate previousView currentTree in
          ret (mkRunningProgram currentModel (listener_of program),
               mkRuntime currentModel previousView (object currentTree) None [])
      | _ =>
          hydrate_undefined previousView ;;;
          ret (mkRunningProgram currentModel (listener_of program),
               mkRuntime currentModel previousView undefined None [])
      end
  | None =>
      console_write (ConsoleError forgot_root) ;;;
      ret (mkRunningProgram currentModel (fun rt _ => ret rt),
           mkRuntime currentModel previousView null None [])
  end.

(** Messages delivered one after the other, each to completion. *)
Fixpoint deliver (send : Runtime -> message -> M Runtime) (msgs : list message)
    (rt : Runtime) : M Runtime :=
  match msgs with
  | [] => ret rt
  | msg :: rest => let* rt' := send rt msg in deliver send rest rt'
  end.

(** The model after [update] has seen the messages in turn. *)
Definition advance (program : Program) (msgs : list message) (m : appModel) : appModel :=
  fold_left (fun m msg => fst (update program msg m)) msgs m.

End Tea.

Arguments mkEvent {NativeEvent message}.
Arguments name {NativeEvent message}.
Arguments messageConverter {NativeEvent message}.
Arguments on {NativeEvent message}.
Arguments mkRegistration {NativeEvent message}.
Arguments event {NativeEvent message}.
Arguments listener {NativeEvent message}.
Arguments Node {NativeEvent message}.
Arguments Text {NativeEvent message}.
Arguments node {NativeEvent message}.
Arguments div {NativeEvent message}.
Arguments h1 {NativeEvent message}.
Arguments button {NativeEvent message}.
Arguments input {NativeEvent message}.
Arguments text {NativeEvent message}.
Arguments mkListener {NativeEvent message}.
Arguments l_type {NativeEvent message}.
Arguments l_callback {NativeEvent message}.
Arguments l_once {NativeEvent message}.
Arguments l_event {NativeEvent message}.
Arguments HTMLElement {NativeEvent message}.
Arguments TextNode {NativeEvent message}.
Arguments childNodes {NativeEvent message}.
Arguments listeners {NativeEvent message}.
Arguments set_childNodes {NativeEvent message}.
Arguments set_listeners {NativeEvent message}.
Arguments createElement {NativeEvent message}.
Arguments createTextNode {NativeEvent message}.
Arguments addEventListener {NativeEvent message}.
Arguments same_listener {NativeEvent message}.
Arguments removeEventListener {NativeEvent message}.
Arguments appendChild {NativeEvent message}.
Arguments removeChild {NativeEvent message}.
Arguments el_setAttribute {NativeEvent message}.
Arguments el_getAttribute {NativeEvent message}.
Arguments el_removeAttribute {NativeEvent message}.
Arguments el_setProperty {NativeEvent message}.
Arguments classList_add {NativeEvent message}.
Arguments classList_remove {NativeEvent message}.
Arguments classList_of {NativeEvent message}.
Arguments attrs_of {NativeEvent message}.
Arguments prune_classes {NativeEvent message}.
Arguments setAttribute {NativeEvent message}.
Arguments subscribe {NativeEvent message}.
Arguments build_children {NativeEvent message}.
Arguments buildTree {NativeEvent message}.
Arguments set_child {NativeEvent message}.
Arguments set_children {NativeEvent message}.
Arguments hydrate_children {NativeEvent message}.
Arguments hydrate {NativeEvent message}.
Arguments patchEvents {NativeEvent message}.
Arguments patch_against {NativeEvent message}.
Arguments patchAttributes {NativeEvent message}.
Arguments mkPatched {NativeEvent message}.
Arguments p_nextView {NativeEvent message}.
Arguments p_currentTree {NativeEvent message}.
Arguments p_replacement {NativeEvent message}.
Arguments p_status {NativeEvent message}.
Arguments in_place {NativeEvent message}.
Arguments replace_with_built {NativeEvent message}.
Arguments remove_excess {NativeEvent message}.
Arguments patch_children {NativeEvent message}.
Arguments patch {NativeEvent message}.
Arguments mkProgram {NativeEvent message appModel}.
Arguments initialModel {NativeEvent message appModel}.
Arguments update {NativeEvent message appModel}.
Arguments view {NativeEvent message appModel}.
Arguments null {NativeEvent message}.
Arguments undefined {NativeEvent message}.
Arguments object {NativeEvent message}.
Arguments mkRuntime {NativeEvent message appModel}.
Arguments currentModel {NativeEvent message appModel}.
Arguments previousView {NativeEvent message appModel}.
Arguments currentTree {NativeEvent message appModel}.
Arguments displaced {NativeEvent message appModel}.
Arguments timers {NativeEvent message appModel}.
Arguments mkRunningProgram {NativeEvent message appModel}.
Arguments model {NativeEvent message appModel}.
Arguments send {NativeEvent message appModel}.
Arguments patch_undefined {NativeEvent message}.
Arguments hydrate_undefined {NativeEvent message}.
Arguments listener_of {NativeEvent message appModel}.
Arguments runProgram {NativeEvent message appModel}.
Arguments is_element {NativeEvent message}.
Arguments first_element_child {NativeEvent message}.
Arguments runProgramWithHydration {NativeEvent message appModel}.
Arguments deliver {NativeEvent message appModel}.
Arguments advance {NativeEvent message appModel}.

(** ** The earlier listing ([src/index.ts])

    Nodes have no attributes there (the field is not read), a pair of
    text nodes is always rebuilt, and the loop that removes the excess
    children stops one index higher. *)
Module Earlier.
Section Earlier.

Variables NativeEvent message : Type.
Abbreviation Html := (Html NativeEvent message).
Abbreviation Tree := (Tree NativeEvent message).
Abbreviation Patched := (Patched NativeEvent message).

Fixpoint buildTree (html : Html) : M (Html * Tree) :=
  match html with
  | Node tag children events registered attributes =>
      let* node := createElement tag in
      let* (node, registered) := for_of events subscribe (node, registered) in
      let* (children, node) := build_children buildTree children node in
      ret (Node tag children events registered attributes, node)
  | Text content =>
      let* t := createTextNode content in
      ret (html, t)
  end.

Definition replace_with_built (nextView : Html) (currentTree : Tree) : M Patched :=
  let* (nextView, built) := buildTree nextView in
  call ReplaceWith ;;;
  ret (mkPatched nextView currentTree (Some built) (mkStatus 1 0 0 0)).

(** [for (let i = childNodes.length - 1; i > nextLength; i--)]. *)
Fixpoint remove_excess (i_plus_1 nextLength : nat) (currentTree : Tree)
    (status : PatchStatus) : M (Tree * PatchStatus) :=
  match i_plus_1 with
  | 0 => ret (currentTree, status)
  | S i =>
      if (Z.of_nat nextLength <? Z.of_nat i)%Z then
        let* currentTree := removeChild currentTree i in
        remove_excess i nextLength currentTree
          (mkStatus (replaced status) (patched status) (S (removed status)) (added status))
      else ret (currentTree, status)
  end.

Fixpoint patch_children (patch : Html -> Html -> Tree -> M Patched)
    (previousChildren : list Html) (i : nat) (rest : list Html)
    (currentTree : Tree) (status : PatchStatus)
    : M (list Html * Tree * PatchStatus) :=
  match rest with
  | [] => ret ([], currentTree, status)
  | nextChild :: rest =>
      let previousChild := previousChildren !! i in
      let currentChild := childNodes currentTree !! i in
      let* (nextChild, currentTree, status) :=
        match currentChild with
        | None =>
            let* (nextChild, built) := buildTree nextChild in
            let* currentTree := appendChild currentTree built in
            ret (nextChild, currentTree,
                 mkStatus (replaced status) (patched status)
                          (removed status) (S (added status)))
        | Some currentChild =>
            match previousChild with
            | None => throw TypeError
            | Some previousChild =>
                let* childPatched := patch previousChild nextChild currentChild in
                ret (p_nextView childPatched,
                     set_child i (in_place childPatched) currentTree,
                     add_status status (p_status childPatched))
            end
        end in
      let* (rest, currentTree, status) :=
        patch_children patch previousChildren (S i) rest currentTree status in
      ret (nextChild :: rest, currentTree, status)
  end.

Fixpoint patch (previousView nextView : Html) (currentTree : Tree) {struct nextView}
    : M Patched :=
  match previousView, nextView with
  | Text _, Text _ => replace_with_built nextView currentTree
  | Node previousTag previousChildren _ _ _, Node nextTag nextChildren _ _ _ =>
      if negb (Tag_eqb previousTag nextTag) then replace_with_built nextView currentTree
      else
        let* (patchedView, currentTree) := patchEvents previousView nextView currentTree in
        let* (children, currentTree, status) :=
          patch_children patch previousChildren 0 nextChildren currentTree
                         (mkStatus 0 0 0 0) in
        let* (currentTree, status) :=
          remove_excess (length (childNodes currentTree)) (length nextChildren)
                        currentTree status in
        ret (mkPatched (set_children children patchedView) currentTree None
               (mkStatus (replaced status) (S (patched status))
                         (removed status) (added status)))
  | _, _ => replace_with_built nextView currentTree
  end.

End Earlier.
Arguments buildTree {NativeEvent message}.
Arguments replace_with_built {NativeEvent message}.
Arguments remove_excess {NativeEvent message}.
Arguments patch_children {NativeEvent message}.
Arguments patch {NativeEvent message}.
End Earlier.

(** ** The application: a name collector *)
Module App.

(** What the view reads of a native event: [data.target.value]. *)
Record DomEvent := mkDomEvent { target_value : string }.

Record Model := mkModel {
  currentName : string;
  names : list string;
  checkedNames : list string;
}.

Inductive Message :=
| Noop | Click | ClickWithDelay
| SetCurrentName (value : string)
| Remove (name : string) | Check (name : string) | AddName (name : string).

Definition initialModel : Model :=
  {| currentName := ""; names := []; checkedNames := [] |}.

Definition differs (a b : string) : bool := negb (String.eqb a b).

Definition update (message : Message) (model : Model) : Model * list (nat * Message) :=
  match message with
  | Noop => (model, [])
  | Click =>
      ({| currentName := "";
          names := names model ++ [currentName model];
          checkedNames := names model ++ [currentName model] |}, [])
  | ClickWithDelay => (model, [(3000, Click)])
  | SetCurrentName value =>
      ({| currentName := value; names := names model;
          checkedNames := checkedNames model |}, [])
  | Remove name =>
      ({| currentName := currentName model;
          names := List.filter (fun n => differs n name) (names model);
          checkedNames := checkedNames model |}, [])
  | Check name =>
      if negb (includes (checkedNames model) name) then
        ({| currentName := currentName model; names := names model;
            checkedNames := checkedNames model ++ [name] |}, [])
      else
        ({| currentName := currentName model; names := names model;
            checkedNames := List.filter (fun n => differs n name) (checkedNames model) |}, [])
  | AddName name =>
      ({| currentName := currentName model;
          names := names model ++ [name];
          checkedNames := names model ++ [name] |}, [])
  end.

Abbreviation Html := (Html DomEvent Message).

Definition viewTitle : Html :=
  h1 [text "Name collector"] [] [attribute "class" (VString "title")].

Definition viewNameEntry (model : Model) : Html :=
  div [ text "Enter a name";
        input [] [on "input" (fun data => SetCurrentName (target_value data))]
              [attribute "value" (VString (currentName model))];
        button [text "Add"] [on "click" (fun _ => Click)] [];
        button [text "Add with a delay"] [on "click" (fun _ => ClickWithDelay)] [] ]
      [] [].

Definition viewName (name : string) (isChecked : bool) : Html :=
  div [ input [] [on "click" (fun _ => Check name)]
              [attribute "type" (VString "checkbox");
               attribute "checked" (VBoolean isChecked)];
        text name;
        button [text "Remove this name"] [on "click" (fun _ => Remove name)] [] ]
      []
      [attribute "class"
         (VString (if isChecked then "name-list-item checked" else "name-list-item"))].

Definition viewNames (model : Model) : Html :=
  div (map (fun name => viewName name (includes (checkedNames model) name)) (names model)
       ++ [div [text ("Checked names: " ++ String.concat ", " (checkedNames model))] [] []])
      [] [].

Definition view (model : Model) : Html :=
  div [viewTitle; viewNameEntry model; viewNames model] [] [].

Definition program : Program DomEvent Message Model :=
  mkProgram initialModel update view.

End App.

(** ** Small views and trees the statements are tried on *)
Module Scenario.

Abbreviation View := (Html unit unit).
Abbreviation Live := (Tree unit unit).

Definition clean : World := mkWorld 0 [] [].

(** Attributes [{a: "1", b: "2"}], then [{b: "2", c: "3"}], on a [div]. *)
Definition before : View :=
  div [] [] [attribute "a" (VString "1"); attribute "b" (VString "2")].
Definition before_tree : Live :=
  HTMLElement "DIV" (<["b" := "2"]> (<["a" := "1"]> ∅)) ∅ [] [] [].

(** A [div] with one text child, then with none. *)
Definition one_child : View := div [text "a"] [] [].
Definition no_child : View := div [] [] [].
Definition one_child_tree : Live := HTMLElement "DIV" ∅ ∅ [] [] [TextNode "a" []].
Definition no_child_tree : Live := HTMLElement "DIV" ∅ ∅ [] [] [].

(** A [div] that lists the key [x] three times. *)
Definition repeated : View :=
  div [] [] [attribute "x" (VString "a"); attribute "x" (VString "b");
             attribute "x" (VString "a")].
Definition repeated_tree (v : string) : Live :=
  HTMLElement "DIV" (<["x" := v]> ∅) ∅ [] [] [].

(** A button with a click descriptor, once built (closure 0), and the
    same view as [view] returns it the next time. *)
Definition click : Event unit unit := on "click" (fun _ => tt).
Definition clickable : View := button [] [click] [].
Definition clickable_built : View :=
  Node TagButton [] [click] [mkRegistration click 0] [].
Definition clickable_tree (closure : nat) : Live :=
  HTMLElement "BUTTON" ∅ ∅ [] [mkListener "click" closure true click] [].

(** The application started by [runProgram] on an empty root, and the
    runtime after the messages [SetCurrentName "Ada"], [Click]. *)
Definition built_view : Html App.DomEvent App.Message :=
  Eval vm_compute in
    match buildTree (App.view App.initialModel) clean with
    | Ok r _ => fst r
    | Throw _ => Text ""
    end.
Definition built_tree : Tree App.DomEvent App.Message :=
  Eval vm_compute in
    match buildTree (App.view App.initialModel) clean with
    | Ok r _ => snd r
    | Throw _ => TextNode "" []
    end.
Definition built_world : World :=
  Eval vm_compute in
    match buildTree (App.view App.initialModel) clean with
    | Ok _ w => w
    | Throw _ => clean
    end.
Definition started_runtime : Runtime App.DomEvent App.Message App.Model :=
  mkRuntime App.initialModel built_view (object built_tree) None [].
Definition started_world : World :=
  mkWorld (nextClosure built_world) (calls built_world ++ [ReplaceChildren])
          (console built_world).
Definition ada : list App.Message := [App.SetCurrentName "Ada"; App.Click].
Definition sent_runtime : Runtime App.DomEvent App.Message App.Model :=
  Eval vm_compute in
    match deliver (listener_of App.program) ada started_runtime started_world with
    | Ok rt _ => rt
    | Throw _ => started_runtime
    end.
Definition sent_world : World :=
  Eval vm_compute in
    match deliver (listener_of App.program) ada started_runtime started_world with
    | Ok _ w => w
    | Throw _ => clean
    end.

End Scenario.

(** ** Vocabulary of the statements *)

Section Vocabulary.

Context {NativeEvent message : Type}.
Abbreviation Html' := (Html NativeEvent message).
Abbreviation Tree' := (Tree NativeEvent message).

(** The description proper: a view with every [_eventListeners] emptied,
    as [node] makes it. *)
Fixpoint description (h : Html') : Html' :=
  match h with
  | Node tag children events _ attributes =>
      Node tag (map description children) events [] attributes
  | Text content => Text content
  end.

(** What can be observed of a live tree short of its listeners: tags,
    attributes, properties, classes, text and nesting. *)
Fixpoint observable (t : Tree') : Tree' :=
  match t with
  | HTMLElement tn a p c _ cs => HTMLElement tn a p c [] (map observable cs)
  | TextNode d _ => TextNode d []
  end.

(** Number of element nodes of a view. *)
Fixpoint elements (h : Html') : nat :=
  match h with
  | Node _ children _ _ _ => S (list_sum (map elements children))
  | Text _ => 0
  end.

(** [P] of every element of a list, by recursion on the list. *)
Fixpoint every {A} (P : A -> Prop) (l : list A) : Prop :=
  match l with
  | [] => True
  | x :: rest => P x /\ every P rest
  end.

(** No element of the view lists an attribute key twice. *)
Fixpoint distinct_keys (h : Html') : Prop :=
  match h with
  | Node _ children _ _ attributes =>
      NoDup (map key attributes) /\ every distinct_keys children
  | Text _ => True
  end.

(** The attributes [setAttribute] accepts on an element: a class
    attribute must be a string whose pieces are valid tokens. *)
Definition applicable (a : Attribute) : bool :=
  if String.eqb (key a) "class" then
    match a with
    | StringAttribute _ v =>
        match validate_tokens (split " " v) with
        | None => true
        | Some _ => false
        end
    | BooleanAttribute _ _ => false
    end
  else true.

Fixpoint all_applicable (h : Html') : Prop :=
  match h with
  | Node _ children _ _ attributes =>
      Forall (fun a => applicable a = true) attributes /\ every all_applicable children
  | Text _ => True
  end.

(** Tags, text and nesting of a live tree, and nothing else. *)
Fixpoint shape (t : Tree') : Tree' :=
  match t with
  | HTMLElement tn _ _ _ _ cs => HTMLElement tn ∅ ∅ [] [] (map shape cs)
  | TextNode d _ => TextNode d []
  end.

(** The live tree has an element where the view has one, with as many
    children, which match in turn. *)
Fixpoint matches_children (matches : Html' -> Tree' -> Prop)
    (cs : list Html') (ts : list Tree') : Prop :=
  match cs, ts with
  | [], [] => True
  | c :: cs', t :: ts' => matches c t /\ matches_children matches cs' ts'
  | _, _ => False
  end.

Fixpoint matches (h : Html') (t : Tree') : Prop :=
  match h with
  | Node _ children _ _ _ =>
      is_element t = true /\ matches_children matches children (childNodes t)
  | Text _ => True
  end.

(** The number of listeners hydration attaches: one per descriptor of
    an element view, then the same for the children, index by index, as
    far as the live node has children. *)
Fixpoint attached_children (attached : Html' -> Tree' -> nat)
    (cs : list Html') (ts : list Tree') : nat :=
  match cs, ts with
  | c :: cs', t :: ts' => attached c t + attached_children attached cs' ts'
  | _, _ => 0
  end.

Fixpoint attached (h : Html') (t : Tree') : nat :=
  match h with
  | Node _ children events _ _ =>
      length events + attached_children attached children (childNodes t)
  | Text _ => 0
  end.

(** [w'] is [w] after [n] closures were created and registered with
    [addEventListener], and nothing else. *)
Definition listeners_added (w : World) (n : nat) (w' : World) : Prop :=
  exists cs,
    w' = mkWorld (nextClosure w + n) (calls w ++ cs) (console w) /\
    length cs = n /\
    Forall (fun c => exists type callback, c = AddEventListener type callback) cs.

(** What patching a view against itself does on a live node that
    matches it. *)
Definition patches_onto_itself (A : Html') : Prop :=
  forall tree w, matches A tree -> all_applicable A ->
  exists p w',
    patch A A tree w = Ok p w' /\
    p_status p = mkStatus 0 (elements A) 0 0 /\
    p_replacement p = None /\
    shape (p_currentTree p) = shape tree /\
    (distinct_keys A -> observable (p_currentTree p) = observable tree).

(** What hydrating a view does, whatever the live node and the world. *)
Definition hydrates (next : Html') : Prop :=
  forall tree w, exists next' tree' w',
    hydrate next tree w = Ok (next', tree') w' /\
    observable tree' = observable tree /\
    description next' = description next /\
    listeners_added w (attached next tree) w'.

(** The listeners, registrations and host calls of one pass over the
    event descriptors [evs], the first closure being number [n]. *)
Definition new_listeners (n : nat) (evs : list (Event NativeEvent message))
    : list (Listener NativeEvent message) :=
  imap (fun i ev => mkListener (name ev) (n + i) true ev) evs.

Definition new_registrations (n : nat) (evs : list (Event NativeEvent message))
    : list (Registration NativeEvent message) :=
  imap (fun i ev => mkRegistration ev (n + i)) evs.

Definition new_calls (n : nat) (evs : list (Event NativeEvent message)) : list HostCall :=
  imap (fun i ev => AddEventListener (name ev) (n + i)) evs.

(** The listeners left on a target once every registered pair of
    [registered] has been passed to [removeEventListener]. *)
Definition without (registered : list (Registration NativeEvent message))
    (ls : list (Listener NativeEvent message)) : list (Listener NativeEvent message) :=
  fold_left
    (fun ls r => List.filter (fun l => negb (same_listener (name (event r)) (listener r) l)) ls)
    registered ls.

(** Two states of one node that differ at most in attributes,
    properties and classes. *)
Inductive attribute_change : Tree' -> Tree' -> Prop :=
| change_element tn a p c a' p' c' ls cs :
    attribute_change (HTMLElement tn a p c ls cs) (HTMLElement tn a' p' c' ls cs)
| change_text d ls :
    attribute_change (TextNode d ls) (TextNode d ls).

End Vocabulary.

(** The attribute key a host call writes, if it writes one (the class
    list is the attribute [class]). *)
Definition written_key (c : HostCall) : option string :=
  match c with
  | SetAttribute k _ | RemoveAttribute k | SetProperty k _ => Some k
  | ClassListAdd _ | ClassListRemove _ => Some "class"
  | _ => None
  end.

(** The calls that remove the children at indices [len - 1] down to
    [n], last child first. *)
Definition removal_calls (n len : nat) : list HostCall :=
  map RemoveChild (rev (seq n (len - n))).

(** [w'] is [w] after the host calls [cs], and nothing else. *)
Definition after_calls (w : World) (cs : list HostCall) (w' : World) : Prop :=
  w' = mkWorld (nextClosure w) (calls w ++ cs) (console w).

(** Attribute reconciliation as the design states it: what is done for
    a key depends on where the key occurs.  The value a key had before
    is the one of the first previous attribute with that key. *)
Inductive AttributeAction :=
| ApplyAttribute (a : Attribute)
| RemoveKey (k : string).

Definition action_key (action : AttributeAction) : string :=
  match action with
  | ApplyAttribute a => key a
  | RemoveKey k => k
  end.

Definition previous_value (previous : list Attribute) (k : string) : option Value :=
  option_map value (List.find (fun p => String.eqb k (key p)) previous).

Definition reconciliation (previous next : list Attribute) : list AttributeAction :=
  flat_map (fun a =>
              match previous_value previous (key a) with
              | Some v =>                       (* key in both *)
                  if value_eqb (value a) v then [] else [ApplyAttribute a]
              | None => [ApplyAttribute a]      (* key only in next *)
              end) next
  ++ flat_map (fun p =>
                 if includes (map key next) (key p) then []
                 else [RemoveKey (key p)])      (* key only in previous *)
              previous.

Definition perform {NativeEvent message : Type} (action : AttributeAction)
    (t : Tree NativeEvent message) : M (Tree NativeEvent message) :=
  match action with
  | ApplyAttribute a => setAttribute t a
  | RemoveKey k => el_removeAttribute t k
  end.

(** What an attribute function may do: change attributes, properties
    and classes of the node, through host calls that write [k]. *)
Definition writes_only {NativeEvent message : Type} (k : string)
    (t : Tree NativeEvent message) (w : World)
    (t' : Tree NativeEvent message) (w' : World) : Prop :=
  attribute_change t t' /\
  exists cs, after_calls w cs w' /\ Forall (fun c => written_key c = Some k) cs.

(** ** Rendering a view as a string *)

Section Rendering.

Context {NativeEvent message : Type}.

(** The tag as the view holds it. *)
Definition tag_text (t : Tag) : string :=
  match t with
  | TagDiv => "div"
  | TagH1 => "h1"
  | TagButton => "button"
  | TagInput => "input"
  end.

(** [s.indexOf(c)] for a one-character [c]: the first index, or -1. *)
Fixpoint indexOf (s : string) (c : ascii) : Z :=
  match s with
  | EmptyString => (-1)%Z
  | String x rest =>
      if Ascii.eqb x c then 0%Z
      else let i := indexOf rest c in
           if (i <? 0)%Z then (-1)%Z else (i + 1)%Z
  end.

(** The double quote character. *)
Definition double_quote : ascii := Ascii.ascii_of_nat 34.

(** [s] between two characters [q]. *)
Definition between (q : ascii) (s : string) : string :=
  String q (s +:+ String q EmptyString).

Definition renderAttributeAsString (attribute : Attribute) : string :=
  match attribute with
  | BooleanAttribute k v =>
      if v then k +:+ "=" +:+ between double_quote k else EmptyString
  | StringAttribute k v =>
      if (0 <? indexOf v double_quote)%Z then k +:+ "='" +:+ v +:+ "'"
      else k +:+ "=" +:+ between double_quote v
  end.

Fixpoint renderAsString (html : Html NativeEvent message) : string :=
  match html with
  | Node tag children _ _ attributes =>
      let container := tag_text tag in
      let children := String.concat EmptyString (map renderAsString children) in
      let attributes := String.concat " " (map renderAttributeAsString attributes) in
      if Nat.eqb (String.length attributes) 0
      then "<" +:+ container +:+ ">" +:+ children +:+ "</" +:+ container +:+ ">"
      else "<" +:+ container +:+ " " +:+ attributes +:+ ">" +:+ children
           +:+ "</" +:+ container +:+ ">"
  | Text content => content
  end.

End Rendering.

(** ** Vocabulary of the further statements *)

Section Convergence.

Context {NativeEvent message : Type}.

(** The live tree a view describes, as to tags, text and nesting. *)
Fixpoint skeleton (h : Html NativeEvent message) : Tree NativeEvent message :=
  match h with
  | Node tag children _ _ _ =>
      HTMLElement (tagName_of tag) ∅ ∅ [] [] (map skeleton children)
  | Text content => TextNode content []
  end.

(** The test of [patch] that decides between working on the node and
    replacing it: same kind, and same content or same tag. *)
Definition same_root (previousView nextView : Html NativeEvent message) : bool :=
  match previousView, nextView with
  | Text previousContent, Text nextContent => String.eqb previousContent nextContent
  | Node previousTag _ _ _ _, Node nextTag _ _ _ _ => Tag_eqb previousTag nextTag
  | _, _ => false
  end.

(** What patching towards [next] does on a live node that has the shape
    of the previous view. *)
Definition patch_converges_on (next : Html NativeEvent message) : Prop :=
  forall prev tree w, shape tree = skeleton prev -> all_applicable next ->
  exists p w',
    patch prev next tree w = Ok p w' /\
    shape (in_place p) = skeleton next /\
    (same_root prev next = true -> p_replacement p = None) /\
    (same_root prev next = false ->
       p_currentTree p = tree /\ exists built, p_replacement p = Some built).








(** A view as the view functions return it: nothing on
    [_eventListeners] yet. *)
Fixpoint fresh (h : Html NativeEvent message) : Prop :=
  match h with
  | Node _ children _ registered _ => registered = [] /\ every fresh children
  | Text _ => True
  end.




(** A program whose views are all elements of one tag, with attributes
    [setAttribute] accepts. *)
Definition steady {appModel : Type} (program : Program NativeEvent message appModel)
    (tag : Tag) : Prop :=
  forall m,
    all_applicable (view program m) /\
    exists children events registered attributes,
      view program m = Node tag children events registered attributes.

(** The properties set on a node. *)
Definition props_of (t : Tree NativeEvent message) : gmap string Value :=
  match t with
  | HTMLElement _ _ p _ _ _ => p
  | TextNode _ _ => ∅
  end.


End Convergence.

(** ** Further small programs and trees *)
Module Cases.

(** A program whose view is a text or a [div], in turn. *)
Definition toggle : Program unit unit bool :=
  mkProgram false (fun _ m => (negb m, []))
            (fun m => if m then text "on" else div [text "off"] [] []).
Definition off_tree : Tree unit unit :=
  HTMLElement "DIV" ∅ ∅ [] [] [TextNode "off" []].
Definition toggle_started : Runtime unit unit bool :=
  mkRuntime false (div [text "off"] [] []) (object off_tree) None [].
Definition toggled_once : Runtime unit unit bool :=
  mkRuntime true (text "on") (object off_tree) (Some (TextNode "on" [])) [].
Definition toggled_twice : Runtime unit unit bool :=
  mkRuntime false (div [text "off"] [] []) (object off_tree) (Some (TextNode "on" [])) [].

(** The world after the first dispatch of [toggle]. *)
Definition toggled_world : World :=
  Eval vm_compute in
    match listener_of toggle toggle_started tt Scenario.clean with
    | Ok _ w => w
    | Throw _ => Scenario.clean
    end.


(** An element with two classes, and one with a property. *)
Definition two_classes : Tree unit unit :=
  HTMLElement "DIV" ∅ ∅ ["old"; "older"] [] [].

End Cases.

(** * Properties *)

(** ** Reasoning about computations *)

Lemma bind_Ok {A B} (c : M A) (k : A -> M B) w b w' :
  bind c k w = Ok b w' ->
  exists a w1, c w = Ok a w1 /\ k a w1 = Ok b w'.
Proof.
  unfold bind. destruct (c w) as [a w1|e]; [|discriminate].
  intros H. exists a, w1. split; [reflexivity|exact H].
Qed.

Lemma bind_eq {A B} (c : M A) (k : A -> M B) w a w1 :
  c w = Ok a w1 -> bind c k w = k a w1.
Proof. unfold bind. intros ->. reflexivity. Qed.

Lemma ret_Ok {A} (a b : A) w w' : ret a w = Ok b w' -> a = b /\ w = w'.
Proof. unfold ret. intros H. injection H as -> ->. split; reflexivity. Qed.

Ltac inv_bind H :=
  let a := fresh "r" in
  let w := fresh "w" in
  let H1 := fresh "Hrun" in
  apply bind_Ok in H; destruct H as (a & w & H1 & H).

Ltac inv_ret H :=
  apply ret_Ok in H; destruct H as [? ?]; subst.

Section Properties.

Context {NativeEvent message : Type}.
Abbreviation HtmlT := (Html NativeEvent message).
Abbreviation TreeT := (Tree NativeEvent message).
Implicit Types (h prev next : HtmlT) (t tree : TreeT) (w : World).

(** Induction over a view with the hypothesis on all the children. *)
Lemma Html_rect_children (P : HtmlT -> Prop) :
  (forall content, P (Text content)) ->
  (forall tag children events registered attributes,
      Forall P children -> P (Node tag children events registered attributes)) ->
  forall h, P h.
Proof.
  intros HT HN. fix IH 1. intros [tag children events registered attributes|content].
  - apply HN. induction children as [|c cs IHcs]; constructor; [apply IH|exact IHcs].
  - apply HT.
Qed.

(** *** Listeners *)

Lemma listeners_set_listeners ls t : listeners (set_listeners ls t) = ls.
Proof. destruct t; reflexivity. Qed.

Lemma set_listeners_twice ls ls' t :
  set_listeners ls' (set_listeners ls t) = set_listeners ls' t.
Proof. destruct t; reflexivity. Qed.

Lemma set_listeners_same t : set_listeners (listeners t) t = t.
Proof. destruct t; reflexivity. Qed.

Lemma childNodes_set_listeners ls t : childNodes (set_listeners ls t) = childNodes t.
Proof. destruct t; reflexivity. Qed.

Lemma observable_set_listeners ls t : observable (set_listeners ls t) = observable t.
Proof. destruct t; reflexivity. Qed.

Lemma new_listeners_cons n (ev : Event NativeEvent message) evs :
  new_listeners n (ev :: evs) = mkListener (name ev) n true ev :: new_listeners (S n) evs.
Proof.
  unfold new_listeners. simpl. rewrite Nat.add_0_r. f_equal.
  apply imap_ext. intros i x _. simpl. f_equal. lia.
Qed.

Lemma new_registrations_cons n (ev : Event NativeEvent message) evs :
  new_registrations n (ev :: evs) = mkRegistration ev n :: new_registrations (S n) evs.
Proof.
  unfold new_registrations. simpl. rewrite Nat.add_0_r. f_equal.
  apply imap_ext. intros i x _. simpl. f_equal. lia.
Qed.

Lemma new_calls_cons n (ev : Event NativeEvent message) evs :
  new_calls n (ev :: evs) = AddEventListener (name ev) n :: new_calls (S n) evs.
Proof.
  unfold new_calls. simpl. rewrite Nat.add_0_r. f_equal.
  apply imap_ext. intros i x _. simpl. f_equal. lia.
Qed.

(** One pass of [subscribe] over the descriptors: it cannot fail, adds
    one once-only listener per descriptor at the end of the target's
    list, pushes the pairs, and makes no other host call. *)
Lemma subscribe_all evs t (regs : list (Registration NativeEvent message)) w :
  for_of evs subscribe (t, regs) w
  = Ok (set_listeners (listeners t ++ new_listeners (nextClosure w) evs) t,
        regs ++ new_registrations (nextClosure w) evs)
       (mkWorld (nextClosure w + length evs)
                (calls w ++ new_calls (nextClosure w) evs) (console w)).
Proof.
  revert t regs w. induction evs as [|ev evs IH]; intros t regs w.
  - simpl. unfold ret. rewrite !app_nil_r, set_listeners_same, Nat.add_0_r.
    destruct w; reflexivity.
  - simpl for_of. unfold bind at 1.
    change (subscribe ev (t, regs) w) with
      (Ok (set_listeners (listeners t ++ [mkListener (name ev) (nextClosure w) true ev]) t,
           regs ++ [mkRegistration ev (nextClosure w)])
          (mkWorld (S (nextClosure w)) (calls w ++ [AddEventListener (name ev) (nextClosure w)])
                   (console w))).
    cbv beta iota. rewrite IH. simpl.
    rewrite listeners_set_listeners, set_listeners_twice.
    rewrite new_listeners_cons, new_registrations_cons, new_calls_cons.
    rewrite <- !app_assoc. simpl. repeat f_equal. lia.
Qed.

(** *** Host calls of the attribute functions *)

Lemma after_calls_nil w : after_calls w [] w.
Proof. unfold after_calls. rewrite app_nil_r. destruct w; reflexivity. Qed.

Lemma after_calls_trans w cs w1 cs' w2 :
  after_calls w cs w1 -> after_calls w1 cs' w2 -> after_calls w (cs ++ cs') w2.
Proof. unfold after_calls. intros -> ->. simpl. rewrite app_assoc. reflexivity. Qed.

Lemma after_calls_call c w : call c w = Ok tt (mkWorld (nextClosure w) (calls w ++ [c]) (console w)).
Proof. reflexivity. Qed.

Lemma attribute_change_refl t : attribute_change t t.
Proof. destruct t; constructor. Qed.

Lemma attribute_change_trans t1 t2 t3 :
  attribute_change t1 t2 -> attribute_change t2 t3 -> attribute_change t1 t3.
Proof. intros H12 H23. destruct H12; inversion H23; subst; constructor. Qed.

Lemma attribute_change_listeners t t' : attribute_change t t' -> listeners t' = listeners t.
Proof. intros []; reflexivity. Qed.

Lemma attribute_change_childNodes t t' : attribute_change t t' -> childNodes t' = childNodes t.
Proof. intros []; reflexivity. Qed.

Lemma writes_only_refl k t w : writes_only k t w t w.
Proof.
  split; [apply attribute_change_refl|]. exists []. split; [apply after_calls_nil|constructor].
Qed.

Lemma writes_only_trans k t w t1 w1 t2 w2 :
  writes_only k t w t1 w1 -> writes_only k t1 w1 t2 w2 -> writes_only k t w t2 w2.
Proof.
  intros (Hc1 & cs1 & Hw1 & Hk1) (Hc2 & cs2 & Hw2 & Hk2). split.
  - eapply attribute_change_trans; eassumption.
  - exists (cs1 ++ cs2). split; [eapply after_calls_trans; eassumption|].
    apply Forall_app; split; assumption.
Qed.

Lemma el_setAttribute_writes t k v w t' w' :
  el_setAttribute t k v w = Ok t' w' -> writes_only k t w t' w'.
Proof.
  destruct t; [|discriminate]. intros H. injection H as <- <-.
  split; [constructor|]. exists [SetAttribute k v]. split; [reflexivity|].
  repeat constructor.
Qed.

Lemma el_removeAttribute_writes t k w t' w' :
  el_removeAttribute t k w = Ok t' w' -> writes_only k t w t' w'.
Proof.
  destruct t; [|discriminate]. intros H. injection H as <- <-.
  split; [constructor|]. exists [RemoveAttribute k]. split; [reflexivity|].
  repeat constructor.
Qed.

Lemma el_setProperty_writes t k v w t' w' :
  el_setProperty t k v w = Ok t' w' -> writes_only k t w t' w'.
Proof.
  destruct t; [|discriminate]. intros H. injection H as <- <-.
  split; [constructor|]. exists [SetProperty k v]. split; [reflexivity|].
  repeat constructor.
Qed.

Lemma classList_remove_writes t token w t' w' :
  classList_remove t token w = Ok t' w' -> writes_only "class" t w t' w'.
Proof.
  destruct t; [|discriminate]. intros H. injection H as <- <-.
  split; [constructor|]. exists [ClassListRemove token]. split; [reflexivity|].
  repeat constructor.
Qed.

Lemma classList_add_writes t tokens w t' w' :
  classList_add t tokens w = Ok t' w' -> writes_only "class" t w t' w'.
Proof.
  destruct t; [|discriminate]. simpl. destruct (validate_tokens tokens); [discriminate|].
  intros H. injection H as <- <-.
  split; [constructor|]. exists [ClassListAdd tokens]. split; [reflexivity|].
  repeat constructor.
Qed.

Lemma prune_classes_writes steps : forall index classes t w t' w',
  prune_classes steps index classes t w = Ok t' w' -> writes_only "class" t w t' w'.
Proof.
  induction steps as [|steps IH]; intros index classes t w t' w' H; simpl in H.
  - inv_ret H. apply writes_only_refl.
  - destruct (classList_of t !! index) as [class_|].
    + destruct (negb (includes classes class_)).
      * inv_bind H. eapply writes_only_trans.
        -- eapply classList_remove_writes; eassumption.
        -- eapply IH; eassumption.
      * eapply IH; eassumption.
    + inv_ret H. apply writes_only_refl.
Qed.

Lemma setAttribute_writes t a w t' w' :
  setAttribute t a w = Ok t' w' -> writes_only (key a) t w t' w'.
Proof.
  unfold setAttribute. destruct t as [tn at_ pr cl ls cs|]; [|discriminate].
  destruct (String.eqb (key a) "class") eqn:Hclass.
  - apply String.eqb_eq in Hclass. rewrite Hclass.
    destruct a as [k v|k v]; [|discriminate]. intros H. inv_bind H.
    eapply writes_only_trans.
    + eapply classList_add_writes; eassumption.
    + eapply prune_classes_writes; eassumption.
  - destruct (isProperty tn (key a)).
    + apply el_setProperty_writes.
    + destruct a as [k v|k v]; cbn [key].
      * exact (el_setAttribute_writes (HTMLElement tn at_ pr cl ls cs) k v w t' w').
      * destruct v;
          [exact (el_setAttribute_writes (HTMLElement tn at_ pr cl ls cs) k k w t' w')|].
        intros H. inv_bind H. injection Hrun as <- <-.
        destruct (at_ !! k) as [s0|].
        -- destruct (String.eqb s0 k).
           ++ eapply el_removeAttribute_writes; eassumption.
           ++ inv_ret H. apply writes_only_refl.
        -- inv_ret H. apply writes_only_refl.
Qed.

(** *** Attribute reconciliation *)

Lemma for_of_app {A S} (xs ys : list A) (body : A -> S -> M S) s w :
  for_of (xs ++ ys) body s w = bind (for_of xs body s) (for_of ys body) w.
Proof.
  revert s w. induction xs as [|x xs IH]; intros s w; simpl.
  - reflexivity.
  - unfold bind. destruct (body x s w) as [s1 w1|e]; [|reflexivity].
    rewrite IH. reflexivity.
Qed.

Lemma for_of_ext {A S} (xs : list A) (body body' : A -> S -> M S) s w :
  (forall x s w, body x s w = body' x s w) ->
  for_of xs body s w = for_of xs body' s w.
Proof.
  intros Hext. revert s w. induction xs as [|x xs IH]; intros s w; simpl.
  - reflexivity.
  - unfold bind. rewrite Hext. destruct (body' x s w); [apply IH|reflexivity].
Qed.

Lemma for_of_flat_map {A B S} (f : A -> list B) (xs : list A) (body : B -> S -> M S) s w :
  for_of (flat_map f xs) body s w = for_of xs (fun x s => for_of (f x) body s) s w.
Proof.
  revert s w. induction xs as [|x xs IH]; intros s w; simpl.
  - reflexivity.
  - rewrite for_of_app. unfold bind.
    destruct (for_of (f x) body s w); [apply IH|reflexivity].
Qed.

Lemma includes_In xs x : includes xs x = true <-> In x xs.
Proof.
  unfold includes. rewrite existsb_exists. split.
  - intros (y & Hy & Heq). apply String.eqb_eq in Heq. subst. exact Hy.
  - intros Hx. exists x. split; [exact Hx|apply String.eqb_refl].
Qed.

Lemma value_eqb_eq v v' : value_eqb v v' = true <-> v = v'.
Proof.
  destruct v as [s|b], v' as [s'|b']; simpl; split; try discriminate.
  - intros H. apply String.eqb_eq in H. congruence.
  - intros H. injection H as ->. apply String.eqb_refl.
  - intros H. apply Bool.eqb_prop in H. congruence.
  - intros H. injection H as ->. apply Bool.eqb_reflx.
Qed.

Lemma previous_value_None previousAttributes k :
  previous_value previousAttributes k = None <-> ~ In k (map key previousAttributes).
Proof.
  unfold previous_value. induction previousAttributes as [|p ps IH]; simpl.
  - tauto.
  - destruct (String.eqb k (key p)) eqn:Hk; simpl.
    + apply String.eqb_eq in Hk. split; [discriminate|]. intros Hn. exfalso. auto.
    + apply String.eqb_neq in Hk. rewrite IH. split.
      * intros Hn [Heq|Hin]; [congruence|auto].
      * intros Hn Hin. auto.
Qed.

Lemma patch_against_previous_value previousAttributes a t w :
  patch_against previousAttributes a t w
  = match previous_value previousAttributes (key a) with
    | Some v => if value_eqb (value a) v then ret t w else setAttribute t a w
    | None => ret t w
    end.
Proof.
  unfold previous_value. induction previousAttributes as [|p ps IH]; simpl.
  - reflexivity.
  - destruct (String.eqb (key a) (key p)); simpl.
    + destruct (value_eqb (value a) (value p)); reflexivity.
    + exact IH.
Qed.

Lemma patchAttributes_reconciliation tag children events registered previousAttributes
    tag' children' events' registered' nextAttributes t w :
  patchAttributes (Node tag children events registered previousAttributes)
                  (Node tag' children' events' registered' nextAttributes) t w
  = for_of (reconciliation previousAttributes nextAttributes) perform t w.
Proof.
  unfold patchAttributes, reconciliation. rewrite for_of_app. unfold bind.
  rewrite for_of_flat_map.
  rewrite for_of_ext with (body' := fun x s =>
    for_of match previous_value previousAttributes (key x) with
           | Some v => if value_eqb (value x) v then [] else [ApplyAttribute x]
           | None => [ApplyAttribute x]
           end perform s).
  - destruct (for_of nextAttributes _ t w) as [t1 w1|e]; [|reflexivity].
    rewrite for_of_flat_map. apply for_of_ext. intros p s w0.
    destruct (includes (map key nextAttributes) (key p)); simpl; [reflexivity|].
    unfold bind. destruct (el_removeAttribute s (key p) w0); reflexivity.
  - intros a s w0.
    destruct (includes (map key previousAttributes) (key a)) eqn:Hin.
    + rewrite patch_against_previous_value.
      destruct (previous_value previousAttributes (key a)) as [v|] eqn:Hv.
      * destruct (value_eqb (value a) v); simpl; [reflexivity|].
        unfold bind. destruct (setAttribute s a w0); reflexivity.
      * apply previous_value_None in Hv. apply includes_In in Hin. contradiction.
    + assert (Hnone : previous_value previousAttributes (key a) = None).
      { apply previous_value_None. rewrite <- includes_In. congruence. }
      rewrite Hnone. simpl. unfold bind. destruct (setAttribute s a w0); reflexivity.
Qed.

Lemma reconciliation_apply previousAttributes nextAttributes a :
  In (ApplyAttribute a) (reconciliation previousAttributes nextAttributes) <->
  In a nextAttributes /\
  (previous_value previousAttributes (key a) = None \/
   exists v, previous_value previousAttributes (key a) = Some v /\ value a <> v).
Proof.
  unfold reconciliation. rewrite in_app_iff, !in_flat_map. split.
  - intros [(b & Hb & Hin)|(p & Hp & Hin)].
    + destruct (previous_value previousAttributes (key b)) as [v|] eqn:Hv.
      * destruct (value_eqb (value b) v) eqn:Hvb; [destruct Hin|].
        destruct Hin as [Heq|[]]. injection Heq as ->. split; [assumption|].
        right. exists v. split; [assumption|]. intros Hc.
        apply value_eqb_eq in Hc. congruence.
      * destruct Hin as [Heq|[]]. injection Heq as ->. auto.
    + destruct (includes (map key nextAttributes) (key p)); [destruct Hin|].
      destruct Hin as [Heq|[]]. discriminate.
  - intros (Ha & Hcase). left. exists a. split; [assumption|].
    destruct Hcase as [Hnone|(v & Hv & Hne)].
    + rewrite Hnone. left. reflexivity.
    + rewrite Hv. destruct (value_eqb (value a) v) eqn:Hvb.
      * apply value_eqb_eq in Hvb. contradiction.
      * left. reflexivity.
Qed.

Lemma reconciliation_remove previousAttributes nextAttributes k :
  In (RemoveKey k) (reconciliation previousAttributes nextAttributes) <->
  In k (map key previousAttributes) /\ ~ In k (map key nextAttributes).
Proof.
  unfold reconciliation. rewrite in_app_iff, !in_flat_map. split.
  - intros [(b & Hb & Hin)|(p & Hp & Hin)].
    + destruct (previous_value previousAttributes (key b)) as [v|];
        [destruct (value_eqb (value b) v)|]; simpl in Hin; intuition discriminate.
    + destruct (includes (map key nextAttributes) (key p)) eqn:Hinc; [destruct Hin|].
      destruct Hin as [Heq|[]]. injection Heq as <-. split.
      * apply in_map. assumption.
      * rewrite <- includes_In. congruence.
  - intros (Hin & Hnot). right. apply in_map_iff in Hin as (p & <- & Hp).
    exists p. split; [assumption|].
    destruct (includes (map key nextAttributes) (key p)) eqn:Hinc.
    + apply includes_In in Hinc. contradiction.
    + left. reflexivity.
Qed.

Lemma perform_writes (action : AttributeAction) t w t' w' :
  perform action t w = Ok t' w' -> writes_only (action_key action) t w t' w'.
Proof.
  destruct action as [a|k]; simpl.
  - apply setAttribute_writes.
  - apply el_removeAttribute_writes.
Qed.

(** The host calls of a list of actions write keys of that list, and
    every removal of the list is among them. *)
Lemma perform_all_writes (actions : list AttributeAction) : forall t w t' w',
  for_of actions perform t w = Ok t' w' ->
  attribute_change t t' /\
  exists cs, after_calls w cs w' /\
    Forall (fun c => exists action, In action actions /\
                                    written_key c = Some (action_key action)) cs /\
    (forall k, In (RemoveKey k) actions -> In (RemoveAttribute k) cs).
Proof.
  induction actions as [|action actions IH]; intros t w t' w' H; simpl in H.
  - inv_ret H. split; [apply attribute_change_refl|].
    exists []. split; [apply after_calls_nil|]. split; [constructor|]. intros k [].
  - inv_bind H.
    assert (Hremoved : forall k, action = RemoveKey k ->
              exists cs1, after_calls w cs1 w0 /\ In (RemoveAttribute k) cs1).
    { intros k ->. simpl in Hrun. destruct t; [|discriminate]. injection Hrun as <- <-.
      exists [RemoveAttribute k]. split; [reflexivity|left; reflexivity]. }
    apply perform_writes in Hrun as (Hc1 & cs1 & Hw1 & Hk1).
    apply IH in H as (Hc2 & cs2 & Hw2 & Hk2 & Hr2). split.
    + eapply attribute_change_trans; eassumption.
    + exists (cs1 ++ cs2). split; [eapply after_calls_trans; eassumption|]. split.
      * apply Forall_app. split.
        -- eapply Forall_impl; [exact Hk1|]. intros c Hc. exists action. simpl. auto.
        -- eapply Forall_impl; [exact Hk2|]. intros c (act & Hact & Hc).
           exists act. simpl. auto.
      * intros k [Heq|Hin]; apply in_or_app.
        -- destruct (Hremoved k Heq) as (cs1' & Hw1' & Hin1). left.
           unfold after_calls in Hw1, Hw1'. rewrite Hw1 in Hw1'.
           injection Hw1' as Hcs. apply app_inv_head in Hcs. subst. assumption.
        -- right. auto.
Qed.


(** *** Event reconciliation *)

Lemma unsubscribe_all (regs : list (Registration NativeEvent message)) : forall t w,
  for_of regs (fun r t => removeEventListener t (name (event r)) (listener r)) t w
  = Ok (set_listeners (without regs (listeners t)) t)
       (mkWorld (nextClosure w)
          (calls w ++ map (fun r => RemoveEventListener (name (event r)) (listener r)) regs)
          (console w)).
Proof.
  induction regs as [|r regs IH]; intros t w.
  - simpl. unfold ret. rewrite app_nil_r, set_listeners_same. destruct w; reflexivity.
  - simpl for_of. unfold bind at 1.
    change (removeEventListener t (name (event r)) (listener r) w) with
      (Ok (set_listeners
             (List.filter (fun l => negb (same_listener (name (event r)) (listener r) l))
                          (listeners t)) t)
          (mkWorld (nextClosure w)
             (calls w ++ [RemoveEventListener (name (event r)) (listener r)]) (console w))).
    cbv beta iota. rewrite IH. simpl.
    rewrite listeners_set_listeners, set_listeners_twice, <- app_assoc. reflexivity.
Qed.

Lemma patchEvents_nodes tag children events registered attributes
    tag' children' events' registered' attributes' tree w :
  patchEvents (Node tag children events registered attributes)
              (Node tag' children' events' registered' attributes') tree w
  = Ok (Node tag' children' events'
             (registered' ++ new_registrations (nextClosure w) events') attributes',
        set_listeners (without registered (listeners tree)
                         ++ new_listeners (nextClosure w) events') tree)
       (mkWorld (nextClosure w + length events')
          ((calls w
              ++ map (fun r => RemoveEventListener (name (event r)) (listener r)) registered)
             ++ new_calls (nextClosure w) events')
          (console w)).
Proof.
  unfold patchEvents. unfold bind at 1. rewrite unsubscribe_all.
  unfold bind. rewrite subscribe_all. simpl.
  rewrite listeners_set_listeners, set_listeners_twice. reflexivity.
Qed.

(** *** The children loops keep what belongs to the parent *)

Lemma listeners_set_child i child t : listeners (set_child i child t) = listeners t.
Proof. destruct t; reflexivity. Qed.

Lemma childNodes_set_childNodes cs t :
  is_element t = true -> childNodes (set_childNodes cs t) = cs.
Proof. destruct t; [reflexivity|discriminate]. Qed.

Lemma set_childNodes_same t : set_childNodes (childNodes t) t = t.
Proof. destruct t; reflexivity. Qed.

Lemma appendChild_Ok t child w t' w' :
  appendChild t child w = Ok t' w' ->
  t' = set_childNodes (childNodes t ++ [child]) t /\ is_element t = true /\
  after_calls w [AppendChild] w'.
Proof.
  destruct t; [|discriminate]. intros H. injection H as <- <-. repeat split.
Qed.

Lemma listeners_set_childNodes cs t : listeners (set_childNodes cs t) = listeners t.
Proof. destruct t; reflexivity. Qed.

Lemma patch_children_listeners (f : HtmlT -> HtmlT -> TreeT -> M (Patched NativeEvent message))
    previousChildren rest : forall i tree status w children tree' status' w',
  patch_children f previousChildren i rest tree status w = Ok (children, tree', status') w' ->
  listeners tree' = listeners tree.
Proof.
  induction rest as [|c rest IH]; intros i tree status w children tree' status' w' H;
    simpl in H.
  - inv_ret H. congruence.
  - inv_bind H. destruct r as [[c1 tree1] status1].
    inv_bind H. destruct r as [[rest1 tree2] status2]. inv_ret H.
    match goal with E : _ = (children, tree', status') |- _ => injection E as <- <- <- end.
    apply IH in Hrun0. rewrite Hrun0.
    destruct (childNodes tree !! i) as [currentChild|].
    + destruct (previousChildren !! i) as [previousChild|]; [|discriminate].
      inv_bind Hrun. inv_ret Hrun.
      match goal with E : _ = (c1, tree1, status1) |- _ => injection E as <- <- <- end.
      apply listeners_set_child.
    + inv_bind Hrun. destruct r as [c2 built]. inv_bind Hrun. inv_ret Hrun.
      match goal with E : _ = (c1, tree1, status1) |- _ => injection E as <- <- <- end.
      match goal with E : appendChild _ _ _ = _ |- _ =>
        apply appendChild_Ok in E as (-> & _ & _) end.
      apply listeners_set_childNodes.
Qed.

(** The removal loop, started at the last child: it cannot fail, keeps
    the first [n] children and counts the others. *)
Lemma remove_excess_spec n : forall m t status w,
  m = length (childNodes t) ->
  remove_excess m n t status w
  = Ok (set_childNodes (take n (childNodes t)) t,
        mkStatus (replaced status) (patched status)
                 (removed status + (m - n)) (added status))
       (mkWorld (nextClosure w) (calls w ++ removal_calls n m) (console w)).
Proof.
  induction m as [|i IH]; intros t status w Hm.
  - simpl. unfold ret, removal_calls. simpl.
    destruct (childNodes t) eqn:Hcs; [|discriminate].
    rewrite take_nil, <- Hcs, set_childNodes_same, app_nil_r, Nat.add_0_r.
    destruct status, w; reflexivity.
  - simpl. destruct (Z.of_nat n - 1 <? Z.of_nat i)%Z eqn:Hcmp.
    + apply Z.ltb_lt in Hcmp. assert (Hle : n <= i) by lia.
      unfold bind, removeChild.
      destruct (childNodes t !! i) as [last|] eqn:Hlast.
      2:{ apply lookup_ge_None in Hlast. lia. }
      simpl.
      assert (Hel : is_element t = true).
      { destruct t; [reflexivity|]. simpl in Hm. discriminate. }
      assert (Hdel : delete i (childNodes t) = take i (childNodes t)).
      { rewrite delete_take_drop, drop_ge by lia. apply app_nil_r. }
      rewrite IH.
      2:{ rewrite childNodes_set_childNodes by exact Hel.
          rewrite Hdel, length_take. lia. }
      rewrite childNodes_set_childNodes by exact Hel. rewrite Hdel. simpl.
      rewrite take_take. replace (n `min` i) with n by lia.
      assert (Hcalls : removal_calls n (S i) = RemoveChild i :: removal_calls n i).
      { unfold removal_calls. replace (S i - n) with (S (i - n)) by lia.
        rewrite seq_S, rev_app_distr. simpl. repeat f_equal. lia. }
      rewrite Hcalls, <- app_assoc. simpl.
      destruct t; [|discriminate]. simpl. repeat f_equal. lia.
    + apply Z.ltb_ge in Hcmp. assert (Hgt : i < n) by lia.
      unfold ret, removal_calls. replace (S i - n) with 0 by lia. simpl.
      rewrite take_ge by lia. rewrite set_childNodes_same, app_nil_r, Nat.add_0_r.
      destruct status, w; reflexivity.
Qed.

(** *** Building and patching leave the description alone *)

Lemma build_children_description cs : forall node w cs' node' w',
  Forall (fun c : HtmlT => forall w c' t w',
            buildTree c w = Ok (c', t) w' -> description c' = description c) cs ->
  build_children buildTree cs node w = Ok (cs', node') w' ->
  map description cs' = map description cs.
Proof.
  induction cs as [|c cs IH]; intros node w cs' node' w' Hall H; simpl in H.
  - inv_ret H. congruence.
  - inversion Hall as [|? ? Hc Hcs]; subst.
    inv_bind H. destruct r as [c1 built].
    inv_bind H. inv_bind H. destruct r0 as [rest node2]. inv_ret H.
    match goal with E : _ = (cs', node') |- _ => injection E as <- <- end.
    simpl. f_equal; [eapply Hc; eassumption | eapply IH; eassumption].
Qed.

Lemma build_description h : forall w h' t w',
  buildTree h w = Ok (h', t) w' -> description h' = description h.
Proof.
  induction h as [content|tag children events registered attributes IH]
    using Html_rect_children; intros w h' t w' H; simpl in H.
  - inv_bind H. inv_ret H. congruence.
  - inv_bind H. inv_bind H. destruct r0 as [node registered'].
    inv_bind H. destruct r0 as [children' node'].
    inv_bind H. inv_ret H.
    match goal with E : _ = (h', t) |- _ => injection E as <- <- end.
    simpl. f_equal. eapply build_children_description; eassumption.
Qed.

Lemma replace_with_built_description next tree w p w' :
  replace_with_built next tree w = Ok p w' ->
  description (p_nextView p) = description next.
Proof.
  unfold replace_with_built. intros H.
  inv_bind H. destruct r as [next' built]. inv_bind H. inv_ret H.
  simpl. eapply build_description; eassumption.
Qed.

Lemma patch_children_description (previousChildren : list HtmlT) rest :
  forall i tree status w children tree' status' w',
  Forall (fun c : HtmlT => forall prev t w p w',
            patch prev c t w = Ok p w' -> description (p_nextView p) = description c) rest ->
  patch_children patch previousChildren i rest tree status w
    = Ok (children, tree', status') w' ->
  map description children = map description rest.
Proof.
  induction rest as [|c rest IH]; intros i tree status w children tree' status' w' Hall H;
    simpl in H.
  - inv_ret H. congruence.
  - inversion Hall as [|? ? Hc Hrest]; subst.
    inv_bind H. destruct r as [[c1 tree1] status1].
    inv_bind H. destruct r as [[rest1 tree2] status2]. inv_ret H.
    match goal with E : _ = (children, tree', status') |- _ => injection E as <- <- <- end.
    simpl. f_equal; [|eapply IH; eassumption].
    destruct (childNodes tree !! i) as [currentChild|].
    + destruct (previousChildren !! i) as [previousChild|]; [|discriminate].
      inv_bind Hrun. inv_ret Hrun.
      match goal with E : _ = (c1, tree1, status1) |- _ => injection E as <- <- <- end.
      eapply Hc; eassumption.
    + inv_bind Hrun. destruct r as [c2 built]. inv_bind Hrun. inv_ret Hrun.
      match goal with E : _ = (c1, tree1, status1) |- _ => injection E as <- <- <- end.
      eapply build_description; eassumption.
Qed.

Lemma patchEvents_node (previousView : HtmlT) tag children events registered attributes
    tree w patchedView tree' w' :
  patchEvents previousView (Node tag children events registered attributes) tree w
    = Ok (patchedView, tree') w' ->
  exists registered', patchedView = Node tag children events registered' attributes.
Proof.
  unfold patchEvents. intros H. inv_bind H. inv_bind H. destruct r0 as [t1 regs1].
  inv_ret H. match goal with E : _ = (patchedView, tree') |- _ => injection E as <- <- end.
  eexists; reflexivity.
Qed.

Lemma patch_description next : forall prev tree w p w',
  patch prev next tree w = Ok p w' -> description (p_nextView p) = description next.
Proof.
  induction next as [content|tag children events registered attributes IH]
    using Html_rect_children; intros prev tree w p w' H.
  - destruct prev as [ptag pchildren pevents pregistered pattributes|pcontent]; simpl in H.
    + eapply replace_with_built_description; eassumption.
    + destruct (String.eqb pcontent content).
      * inv_ret H. reflexivity.
      * eapply replace_with_built_description; eassumption.
  - destruct prev as [ptag pchildren pevents pregistered pattributes|pcontent]; simpl in H.
    + destruct (negb (Tag_eqb ptag tag)).
      * eapply replace_with_built_description; eassumption.
      * inv_bind H. destruct r as [patchedView tree1].
        inv_bind H. inv_bind H. destruct r0 as [[children' tree3] status3].
        inv_bind H. destruct r0 as [tree4 status4]. inv_ret H.
        apply patchEvents_node in Hrun as [registered' ->].
        simpl. f_equal. eapply patch_children_description; eassumption.
    + eapply replace_with_built_description; eassumption.
Qed.

(** *** The steps of [patch] on two elements with the same tag *)

Lemma Tag_eqb_refl tag : Tag_eqb tag tag = true.
Proof. destruct tag; reflexivity. Qed.

Lemma patch_nodes_eq tag children events registered attributes
    tag' children' events' registered' attributes' tree w :
  Tag_eqb tag tag' = true ->
  patch (Node tag children events registered attributes)
        (Node tag' children' events' registered' attributes') tree w
  = bind (patchEvents (Node tag children events registered attributes)
                      (Node tag' children' events' registered' attributes') tree)
      (fun r =>
         bind (patchAttributes (Node tag children events registered attributes)
                 (Node tag' children' events' registered' attributes') (snd r))
           (fun t2 =>
              bind (patch_children patch children 0 children' t2 (mkStatus 0 0 0 0))
                (fun l =>
                   bind (remove_excess (length (childNodes (snd (fst l))))
                           (length children') (snd (fst l)) (snd l))
                     (fun e =>
                        ret (mkPatched (set_children (fst (fst l)) (fst r)) (fst e) None
                               (mkStatus (replaced (snd e)) (S (patched (snd e)))
                                         (removed (snd e)) (added (snd e)))))))) w.
Proof.
  intros Htag. cbn [patch]. rewrite Htag. cbn [negb]. unfold bind.
  destruct (patchEvents _ _ tree w) as [[patchedView t1] w1|]; [|reflexivity]. cbn [fst snd].
  destruct (patchAttributes _ _ t1 w1) as [t2 w2|]; [|reflexivity].
  destruct (patch_children _ _ _ _ t2 _ w2) as [[[cs t3] st] w3|]; [|reflexivity].
  cbn [fst snd]. destruct (remove_excess _ _ t3 st w3) as [[t4 st4] w4|]; reflexivity.
Qed.

Lemma patch_same_tag tag children events registered attributes
    tag' children' events' registered' attributes' tree w p w' :
  Tag_eqb tag tag' = true ->
  patch (Node tag children events registered attributes)
        (Node tag' children' events' registered' attributes') tree w = Ok p w' ->
  exists patchedView t1 w1 t2 w2 patchedChildren t3 status w3,
    patchEvents (Node tag children events registered attributes)
                (Node tag' children' events' registered' attributes') tree w
      = Ok (patchedView, t1) w1 /\
    patchAttributes (Node tag children events registered attributes)
                    (Node tag' children' events' registered' attributes') t1 w1
      = Ok t2 w2 /\
    patch_children patch children 0 children' t2 (mkStatus 0 0 0 0) w2
      = Ok (patchedChildren, t3, status) w3 /\
    p = mkPatched (set_children patchedChildren patchedView)
          (set_childNodes (take (length children') (childNodes t3)) t3) None
          (mkStatus (replaced status) (S (patched status))
             (removed status + (length (childNodes t3) - length children'))
             (added status)) /\
    after_calls w3 (removal_calls (length children') (length (childNodes t3))) w'.
Proof.
  intros Htag H. simpl in H. rewrite Htag in H. simpl in H.
  inv_bind H. destruct r as [patchedView t1].
  inv_bind H. rename r into t2. inv_bind H. destruct r as [[patchedChildren t3] status].
  inv_bind H. destruct r as [t4 status4]. inv_ret H.
  rewrite remove_excess_spec in Hrun2 by reflexivity. injection Hrun2 as <- <- <-.
  exists patchedView, t1, w0, t2, w1, patchedChildren, t3, status, w2.
  repeat split; assumption.
Qed.

Lemma length_childNodes_set_child i child t :
  length (childNodes (set_child i child t)) = length (childNodes t).
Proof. destruct t; simpl; [apply length_insert|reflexivity]. Qed.

(** When the loop over the next children completes, the node has a
    child at every index the loop went through. *)
Lemma patch_children_length (f : HtmlT -> HtmlT -> TreeT -> M (Patched NativeEvent message))
    previousChildren rest : forall i tree status w children tree' status' w',
  i <= length (childNodes tree) ->
  patch_children f previousChildren i rest tree status w = Ok (children, tree', status') w' ->
  length (childNodes tree') = max (length (childNodes tree)) (i + length rest).
Proof.
  induction rest as [|c rest IH]; intros i tree status w children tree' status' w' Hi H;
    simpl in H.
  - inv_ret H. match goal with E : _ = (children, tree', status') |- _ =>
                 injection E as <- <- <- end. simpl. lia.
  - inv_bind H. destruct r as [[c1 tree1] status1].
    inv_bind H. destruct r as [[rest1 tree2] status2]. inv_ret H.
    match goal with E : _ = (children, tree', status') |- _ => injection E as <- <- <- end.
    destruct (childNodes tree !! i) as [currentChild|] eqn:Hchild.
    + apply lookup_lt_Some in Hchild.
      destruct (previousChildren !! i) as [previousChild|]; [|discriminate].
      inv_bind Hrun. inv_ret Hrun.
      match goal with E : _ = (c1, tree1, status1) |- _ => injection E as <- <- <- end.
      apply IH in Hrun0; rewrite ?length_childNodes_set_child; [|lia].
      rewrite Hrun0, length_childNodes_set_child. simpl. lia.
    + apply lookup_ge_None in Hchild.
      inv_bind Hrun. destruct r as [c2 built]. inv_bind Hrun. inv_ret Hrun.
      match goal with E : _ = (c1, tree1, status1) |- _ => injection E as <- <- <- end.
      match goal with E : appendChild _ _ _ = _ |- _ =>
        apply appendChild_Ok in E as (-> & Hel & _) end.
      apply IH in Hrun0; rewrite childNodes_set_childNodes in * by exact Hel;
        rewrite ?length_app in *; simpl in *; lia.
Qed.

(** C1 -- two elements with the same tag.  When [patch] completes, the
    loop over the next children has completed with some node [t3] and
    report [status]; what [patch] returns is that node with the
    children from index [length children'] on removed, last first, and
    no other change: it has exactly [length children'] children, none
    at a higher index, and its report has [removed] raised by the
    number of children removed, [patched] by one, the other counts as
    the loop left them. *)
Theorem patch_removes_excess tag children events registered attributes
    tag' children' events' registered' attributes' tree w p w' :
  Tag_eqb tag tag' = true ->
  patch (Node tag children events registered attributes)
        (Node tag' children' events' registered' attributes') tree w = Ok p w' ->
  exists patchedView t1 w1 t2 w2 patchedChildren t3 status w3,
    patchEvents (Node tag children events registered attributes)
                (Node tag' children' events' registered' attributes') tree w
      = Ok (patchedView, t1) w1 /\
    patchAttributes (Node tag children events registered attributes)
                    (Node tag' children' events' registered' attributes') t1 w1
      = Ok t2 w2 /\
    patch_children patch children 0 children' t2 (mkStatus 0 0 0 0) w2
      = Ok (patchedChildren, t3, status) w3 /\
    p_currentTree p = set_childNodes (take (length children') (childNodes t3)) t3 /\
    childNodes (p_currentTree p) = take (length children') (childNodes t3) /\
    length (childNodes (p_currentTree p)) = length children' /\
    (forall i, length children' <= i -> childNodes (p_currentTree p) !! i = None) /\
    p_replacement p = None /\
    removed (p_status p)
      = removed status + (length (childNodes t3) - length children') /\
    replaced (p_status p) = replaced status /\
    added (p_status p) = added status /\
    patched (p_status p) = S (patched status) /\
    after_calls w3 (removal_calls (length children') (length (childNodes t3))) w'.
Proof.
  intros Htag H.
  destruct (patch_same_tag _ _ _ _ _ _ _ _ _ _ _ _ _ _ Htag H)
    as (patchedView & t1 & w1 & t2 & w2 & patchedChildren & t3 & status & w3 &
        Hevents & Hattributes & Hloop & -> & Hcalls).
  exists patchedView, t1, w1, t2, w2, patchedChildren, t3, status, w3.
  pose proof (patch_children_length _ _ _ _ _ _ _ _ _ _ _ (Nat.le_0_l _) Hloop) as Hlen.
  simpl in Hlen.
  assert (Hkept : childNodes (set_childNodes (take (length children') (childNodes t3)) t3)
                  = take (length children') (childNodes t3)).
  { destruct t3; simpl; [reflexivity|]. symmetry. apply take_nil. }
  simpl. rewrite Hkept.
  assert (Hexact : length (take (length children') (childNodes t3)) = length children').
  { rewrite length_take. lia. }
  repeat split; try assumption; try reflexivity.
  intros i Hi. apply lookup_ge_None. lia.
Qed.

(** C3 -- event reconciliation of two element views, whatever their
    descriptors.  [patchEvents] cannot fail.  It first passes every pair
    registered on the previous view to [removeEventListener], then, for
    each descriptor of the next view, in order, creates one closure,
    registers it once-only and pushes the pair on the next view's
    [_eventListeners].  On two elements with the same tag [patch] starts
    with this, and what it returns carries these listeners and
    registrations. *)
Theorem patchEvents_resubscribes tag children events registered attributes
    tag' children' events' registered' attributes' tree w :
  patchEvents (Node tag children events registered attributes)
              (Node tag' children' events' registered' attributes') tree w
  = Ok (Node tag' children' events'
             (registered' ++ new_registrations (nextClosure w) events') attributes',
        set_listeners (without registered (listeners tree)
                         ++ new_listeners (nextClosure w) events') tree)
       (mkWorld (nextClosure w + length events')
          ((calls w
              ++ map (fun r => RemoveEventListener (name (event r)) (listener r)) registered)
             ++ new_calls (nextClosure w) events')
          (console w)) /\
  length (new_listeners (nextClosure w) events') = length events' /\
  Forall (fun l => l_once l = true /\ nextClosure w <= l_callback l)
         (new_listeners (nextClosure w) events') /\
  (forall p w',
     Tag_eqb tag tag' = true ->
     patch (Node tag children events registered attributes)
           (Node tag' children' events' registered' attributes') tree w = Ok p w' ->
     listeners (p_currentTree p)
       = without registered (listeners tree) ++ new_listeners (nextClosure w) events' /\
     exists patchedChildren,
       p_nextView p
       = Node tag' patchedChildren events'
              (registered' ++ new_registrations (nextClosure w) events') attributes').
Proof.
  split; [apply patchEvents_nodes|]. split; [apply length_imap|]. split.
  { unfold new_listeners. apply List.Forall_forall. intros l Hl.
    apply list_elem_of_In, elem_of_lookup_imap in Hl as (i & ev & -> & _).
    simpl. split; [reflexivity|lia]. }
  intros p w' Htag H.
  destruct (patch_same_tag _ _ _ _ _ _ _ _ _ _ _ _ _ _ Htag H)
    as (patchedView & t1 & w1 & t2 & w2 & patchedChildren & t3 & status & w3 &
        Hevents & Hattributes & Hloop & -> & Hcalls).
  rewrite patchEvents_nodes in Hevents. injection Hevents as <- <- <-.
  rewrite patchAttributes_reconciliation in Hattributes.
  apply perform_all_writes in Hattributes as (Hchange & _).
  apply attribute_change_listeners in Hchange.
  apply patch_children_listeners in Hloop. simpl.
  rewrite listeners_set_childNodes, Hloop, Hchange, listeners_set_listeners.
  split; [reflexivity|]. eexists; reflexivity.
Qed.

(** *** Hydration *)

Lemma listeners_added_refl w : listeners_added w 0 w.
Proof.
  exists []. rewrite Nat.add_0_r, app_nil_r. destruct w. repeat split. constructor.
Qed.

Lemma listeners_added_trans w n w1 m w2 :
  listeners_added w n w1 -> listeners_added w1 m w2 -> listeners_added w (n + m) w2.
Proof.
  intros (cs1 & -> & Hl1 & Hf1) (cs2 & -> & Hl2 & Hf2). exists (cs1 ++ cs2). simpl.
  rewrite <- app_assoc, Nat.add_assoc, length_app, Hl1, Hl2.
  repeat split. apply Forall_app. split; assumption.
Qed.

Lemma subscribe_all_added (evs : list (Event NativeEvent message)) w :
  listeners_added w (length evs)
    (mkWorld (nextClosure w + length evs) (calls w ++ new_calls (nextClosure w) evs)
             (console w)).
Proof.
  exists (new_calls (nextClosure w) evs). split; [reflexivity|].
  split; [apply length_imap|]. unfold new_calls. apply List.Forall_forall. intros c Hc.
  apply list_elem_of_In, elem_of_lookup_imap in Hc as (i & ev & -> & _). eauto.
Qed.

Lemma observable_set_child i child t old :
  childNodes t !! i = Some old -> observable child = observable old ->
  observable (set_child i child t) = observable t.
Proof.
  destruct t as [tn a p c ls cs|d ls]; simpl; [|discriminate].
  intros Hold Hobs. f_equal. rewrite list_fmap_insert, Hobs.
  apply list_insert_id. rewrite list_lookup_fmap, Hold. reflexivity.
Qed.

Lemma childNodes_set_child i child t :
  childNodes (set_child i child t) = <[i := child]> (childNodes t).
Proof. destruct t; reflexivity. Qed.

Lemma hydrate_children_spec (rest : list HtmlT) :
  Forall hydrates rest ->
  forall i tree w, exists rest' tree' w',
    hydrate_children hydrate i rest tree w = Ok (rest', tree') w' /\
    observable tree' = observable tree /\
    listeners tree' = listeners tree /\
    map description rest' = map description rest /\
    listeners_added w (attached_children attached rest (drop i (childNodes tree))) w' /\
    length (childNodes tree') = length (childNodes tree) /\
    (forall k, k < i -> childNodes tree' !! k = childNodes tree !! k) /\
    (forall j, childNodes tree !! (i + j) = None -> rest' !! j = rest !! j) /\
    (forall j child childNode,
        rest !! j = Some child -> childNodes tree !! (i + j) = Some childNode ->
        exists wj child' childNode' wj',
          hydrate child childNode wj = Ok (child', childNode') wj' /\
          rest' !! j = Some child' /\
          childNodes tree' !! (i + j) = Some childNode').
Proof.
  induction rest as [|child rest IH]; intros Hall i tree w.
  - exists [], tree, w. simpl. repeat split; try reflexivity.
    + destruct (drop i (childNodes tree)); apply listeners_added_refl.
    + intros j child childNode Hj. discriminate.
  - inversion Hall as [|? ? Hchild Hrest]; subst. specialize (IH Hrest).
    simpl hydrate_children.
    destruct (childNodes tree !! i) as [childNode|] eqn:Hlookup.
    + destruct (Hchild childNode w) as (child' & childNode' & w1 & Hh & Hobs & Hdesc & Hadd).
      destruct (IH (S i) (set_child i childNode' tree) w1)
        as (rest' & tree' & w' & Hloop & Hobs' & Hls' & Hdesc' & Hadd' & Hlen' & Hlow' &
            Hnone' & Hsome').
      pose proof (lookup_lt_Some _ _ _ Hlookup) as Hi.
      exists (child' :: rest'), tree', w'.
      assert (Hdrop : drop (S i) (childNodes (set_child i childNode' tree))
                      = drop (S i) (childNodes tree)).
      { rewrite childNodes_set_child. apply drop_insert_lt. lia. }
      split.
      { unfold bind at 1. unfold bind at 1. rewrite Hh. unfold ret at 1. cbv beta iota.
        unfold bind. rewrite Hloop. reflexivity. }
      split. { rewrite Hobs'. eapply observable_set_child; eassumption. }
      split. { rewrite Hls'. apply listeners_set_child. }
      split. { simpl. congruence. }
      split.
      { rewrite (drop_S _ _ _ Hlookup). simpl. rewrite Hdrop in Hadd'.
        eapply listeners_added_trans; eassumption. }
      split. { rewrite Hlen'. apply length_childNodes_set_child. }
      split.
      { intros k Hk. rewrite Hlow' by lia. rewrite childNodes_set_child.
        apply list_lookup_insert_ne. lia. }
      split.
      { intros [|j] Hj.
        - rewrite Nat.add_0_r in Hj. congruence.
        - simpl. apply Hnone'. rewrite childNodes_set_child.
          rewrite list_lookup_insert_ne by lia.
          replace (S i + j) with (i + S j) by lia. exact Hj. }
      intros [|j] c cn Hc Hcn.
      * simpl in Hc. injection Hc as <-. rewrite Nat.add_0_r in Hcn.
        rewrite Hlookup in Hcn. injection Hcn as <-.
        exists w, child', childNode', w1. split; [exact Hh|]. split; [reflexivity|].
        rewrite Nat.add_0_r, Hlow' by lia. rewrite childNodes_set_child.
        apply list_lookup_insert_eq. exact Hi.
      * simpl in Hc.
        destruct (Hsome' j c cn Hc) as (wj & c' & cn' & wj' & Hhj & Hr & Ht).
        { rewrite childNodes_set_child, list_lookup_insert_ne by lia.
          replace (S i + j) with (i + S j) by lia. exact Hcn. }
        exists wj, c', cn', wj'. split; [exact Hhj|]. split; [exact Hr|].
        replace (i + S j) with (S i + j) by lia. exact Ht.
    + destruct (IH (S i) tree w)
        as (rest' & tree' & w' & Hloop & Hobs' & Hls' & Hdesc' & Hadd' & Hlen' & Hlow' &
            Hnone' & Hsome').
      pose proof (lookup_ge_None_1 _ _ Hlookup) as Hi.
      exists (child :: rest'), tree', w'.
      split.
      { unfold bind at 1. unfold ret at 1. cbv beta iota. unfold bind. rewrite Hloop.
        reflexivity. }
      split; [exact Hobs'|]. split; [exact Hls'|]. split; [simpl; congruence|].
      split.
      { rewrite drop_ge in Hadd' by lia. rewrite drop_ge by lia.
        destruct rest; exact Hadd'. }
      split; [exact Hlen'|]. split; [intros k Hk; apply Hlow'; lia|].
      split.
      { intros [|j] Hj; [reflexivity|]. simpl. apply Hnone'.
        replace (S i + j) with (i + S j) by lia. exact Hj. }
      intros [|j] c cn Hc Hcn.
      * rewrite Nat.add_0_r in Hcn. congruence.
      * simpl in Hc.
        destruct (Hsome' j c cn Hc) as (wj & c' & cn' & wj' & Hhj & Hr & Ht).
        { replace (S i + j) with (i + S j) by lia. exact Hcn. }
        exists wj, c', cn', wj'. split; [exact Hhj|]. split; [exact Hr|].
        replace (i + S j) with (S i + j) by lia. exact Ht.
Qed.

Lemma hydrate_node tag children events registered attributes tree w :
  Forall hydrates children ->
  exists children' tree' w',
    hydrate (Node tag children events registered attributes) tree w
      = Ok (Node tag children' events
                 (registered ++ new_registrations (nextClosure w) events) attributes,
            tree') w' /\
    observable tree' = observable tree /\
    listeners tree' = listeners tree ++ new_listeners (nextClosure w) events /\
    map description children' = map description children /\
    listeners_added w
      (attached (Node tag children events registered attributes) tree) w' /\
    length (childNodes tree') = length (childNodes tree) /\
    (forall i, childNodes tree !! i = None -> children' !! i = children !! i) /\
    (forall i child childNode,
        children !! i = Some child -> childNodes tree !! i = Some childNode ->
        exists wi child' childNode' wi',
          hydrate child childNode wi = Ok (child', childNode') wi' /\
          children' !! i = Some child' /\
          childNodes tree' !! i = Some childNode').
Proof.
  intros Hall. simpl hydrate. unfold bind at 1. rewrite subscribe_all. cbv beta iota.
  set (t1 := set_listeners (listeners tree ++ new_listeners (nextClosure w) events) tree).
  set (w1 := mkWorld (nextClosure w + length events)
                     (calls w ++ new_calls (nextClosure w) events) (console w)).
  destruct (hydrate_children_spec children Hall 0 t1 w1)
    as (children' & tree' & w' & Hloop & Hobs & Hls & Hdesc & Hadd & Hlen & _ &
        Hnone & Hsome).
  exists children', tree', w'. unfold bind. rewrite Hloop.
  split; [reflexivity|].
  split. { rewrite Hobs. apply observable_set_listeners. }
  split. { rewrite Hls. apply listeners_set_listeners. }
  split; [exact Hdesc|].
  split.
  { simpl. eapply listeners_added_trans; [apply (subscribe_all_added events)|].
    unfold t1 in Hadd. rewrite drop_0, childNodes_set_listeners in Hadd. exact Hadd. }
  split. { rewrite Hlen. unfold t1. rewrite childNodes_set_listeners. reflexivity. }
  split.
  { intros i Hi. apply (Hnone i). unfold t1. rewrite childNodes_set_listeners. exact Hi. }
  intros i child childNode Hc Hcn. apply (Hsome i child childNode Hc).
  unfold t1. rewrite childNodes_set_listeners. exact Hcn.
Qed.

Lemma hydrate_hydrates next : hydrates next.
Proof.
  induction next as [content|tag children events registered attributes IH]
    using Html_rect_children; intros tree w.
  - exists (Text content), tree, w. repeat split. apply listeners_added_refl.
  - destruct (hydrate_node tag children events registered attributes tree w IH)
      as (children' & tree' & w' & Hh & Hobs & _ & Hdesc & Hadd & _).
    eexists _, tree', w'. split; [exact Hh|]. split; [exact Hobs|].
    split; [simpl; congruence|exact Hadd].
Qed.

(** C7 -- [hydrate] cannot fail, and whatever the view and the live
    node: the node comes back with its tags, attributes, properties,
    classes, text and nesting as they were (only listeners were added);
    the only host calls are [addEventListener], one per closure
    created, [attached next tree] of them; the view keeps its
    description.  On a text view nothing happens at all.  On an element
    view the node gets one once-only listener per event descriptor, in
    order, after the listeners it had, and the pairs are pushed on the
    view's [_eventListeners]; then the children are gone through by
    index: where the node has a child at the index, that child view is
    hydrated on that child node, where it has none, the child view is
    left as it is. *)
Theorem hydrate_attaches_only next tree w :
  exists next' tree' w',
    hydrate next tree w = Ok (next', tree') w' /\
    observable tree' = observable tree /\
    description next' = description next /\
    listeners_added w (attached next tree) w' /\
    match next with
    | Text _ => next' = next /\ tree' = tree /\ w' = w
    | Node tag children events registered attributes =>
        listeners tree' = listeners tree ++ new_listeners (nextClosure w) events /\
        Forall (fun l => l_once l = true) (new_listeners (nextClosure w) events) /\
        length (new_listeners (nextClosure w) events) = length events /\
        exists children',
          next' = Node tag children' events
                       (registered ++ new_registrations (nextClosure w) events)
                       attributes /\
          length children' = length children /\
          (forall i, childNodes tree !! i = None -> children' !! i = children !! i) /\
          (forall i child childNode,
              children !! i = Some child -> childNodes tree !! i = Some childNode ->
              exists wi child' childNode' wi',
                hydrate child childNode wi = Ok (child', childNode') wi' /\
                children' !! i = Some child' /\
                childNodes tree' !! i = Some childNode')
    end.
Proof.
  destruct next as [tag children events registered attributes|content].
  - assert (Hall : Forall hydrates children).
    { apply List.Forall_forall. intros c _. apply hydrate_hydrates. }
    destruct (hydrate_node tag children events registered attributes tree w Hall)
      as (children' & tree' & w' & Hh & Hobs & Hls & Hdesc & Hadd & Hlen & Hnone & Hsome).
    eexists _, tree', w'. split; [exact Hh|]. split; [exact Hobs|].
    split; [simpl; congruence|]. split; [exact Hadd|].
    split; [exact Hls|]. split.
    { unfold new_listeners. apply List.Forall_forall. intros l Hl.
      apply list_elem_of_In, elem_of_lookup_imap in Hl as (i & ev & -> & _). reflexivity. }
    split; [apply length_imap|].
    exists children'. split; [reflexivity|]. split.
    { apply (f_equal length) in Hdesc. rewrite !length_map in Hdesc. exact Hdesc. }
    split; assumption.
  - exists (Text content), tree, w. repeat split. apply listeners_added_refl.
Qed.

(** *** Patching a view against itself *)

Lemma every_Forall {A} (P : A -> Prop) l : every P l <-> Forall P l.
Proof.
  induction l as [|x l IH]; simpl.
  - split; constructor.
  - rewrite IH. split; [intros [? ?]; constructor; assumption|].
    intros H. inversion H; auto.
Qed.

Lemma attribute_change_is_element t t' : attribute_change t t' -> is_element t' = is_element t.
Proof. intros []; reflexivity. Qed.

Lemma attribute_change_shape t t' : attribute_change t t' -> shape t' = shape t.
Proof. intros []; reflexivity. Qed.

Lemma is_element_set_listeners ls t : is_element (set_listeners ls t) = is_element t.
Proof. destruct t; reflexivity. Qed.

Lemma is_element_set_childNodes cs t : is_element (set_childNodes cs t) = is_element t.
Proof. destruct t; reflexivity. Qed.

Lemma shape_set_listeners ls t : shape (set_listeners ls t) = shape t.
Proof. destruct t; reflexivity. Qed.

Lemma shape_set_child i child t old :
  childNodes t !! i = Some old -> shape child = shape old ->
  shape (set_child i child t) = shape t.
Proof.
  destruct t as [tn a p c ls cs|d ls]; simpl; [|discriminate].
  intros Hold Hshape. f_equal. rewrite list_fmap_insert, Hshape.
  apply list_insert_id. rewrite list_lookup_fmap, Hold. reflexivity.
Qed.

Lemma prune_classes_total steps : forall index classes t w,
  is_element t = true ->
  exists t' w', prune_classes steps index classes t w = Ok t' w'.
Proof.
  induction steps as [|steps IH]; intros index classes t w Hel; simpl.
  - eexists _, _; reflexivity.
  - destruct (classList_of t !! index) as [class_|]; [|eexists _, _; reflexivity].
    destruct (negb (includes classes class_)); [|apply IH; exact Hel].
    destruct t as [tn a p c ls cs|]; [|discriminate]. unfold bind. simpl. apply IH. reflexivity.
Qed.

Lemma setAttribute_total t a w :
  is_element t = true -> applicable a = true ->
  exists t' w', setAttribute t a w = Ok t' w'.
Proof.
  destruct t as [tn at_ pr cl ls cs|]; [|discriminate]. intros _ Happ.
  unfold setAttribute, applicable in *.
  destruct (String.eqb (key a) "class").
  - destruct a as [k v|k v]; [|discriminate].
    unfold bind, classList_add. destruct (validate_tokens (split " " v)); [discriminate|].
    simpl. apply prune_classes_total. reflexivity.
  - destruct (isProperty tn (key a)); [eexists _, _; reflexivity|].
    destruct a as [k v|k [|]]; try (eexists _, _; reflexivity).
    unfold bind. simpl. destruct (at_ !! k) as [s0|]; [|eexists _, _; reflexivity].
    destruct (String.eqb s0 k); eexists _, _; reflexivity.
Qed.

Lemma setAttribute_applicable t a w t' w' :
  setAttribute t a w = Ok t' w' -> applicable a = true.
Proof.
  destruct t as [tn at_ pr cl ls cs|]; [|discriminate].
  unfold setAttribute, applicable. destruct (String.eqb (key a) "class"); [|reflexivity].
  destruct a as [k v|k v]; [|discriminate].
  unfold bind, classList_add. destruct (validate_tokens (split " " v)); [discriminate|].
  reflexivity.
Qed.

Lemma apply_all_applicable (attributes : list Attribute) : forall (t : TreeT) w t' w',
  for_of attributes (fun a n => setAttribute n a) t w = Ok t' w' ->
  attribute_change t t' /\ Forall (fun a => applicable a = true) attributes.
Proof.
  induction attributes as [|a attributes IH]; intros t w t' w' H; simpl in H.
  - inv_ret H. split; [apply attribute_change_refl|constructor].
  - inv_bind H. pose proof (setAttribute_applicable _ _ _ _ _ Hrun) as Happ.
    apply setAttribute_writes in Hrun as (Hc & _). apply IH in H as (Hc' & Hall).
    split; [eapply attribute_change_trans; eassumption|constructor; assumption].
Qed.

Lemma previous_value_NoDup (attributes : list Attribute) a :
  NoDup (map key attributes) -> In a attributes ->
  previous_value attributes (key a) = Some (value a).
Proof.
  unfold previous_value. induction attributes as [|p ps IH]; intros Hnd Ha; [destruct Ha|].
  simpl in Hnd. apply NoDup_cons in Hnd as (Hp & Hps). simpl.
  destruct Ha as [->|Ha]; [rewrite String.eqb_refl; reflexivity|].
  destruct (String.eqb (key a) (key p)) eqn:Hk; [|auto].
  apply String.eqb_eq in Hk. exfalso. apply Hp. rewrite <- Hk.
  apply list_elem_of_In, in_map. exact Ha.
Qed.

Lemma flat_map_nil {A B} (f : A -> list B) l :
  (forall x, In x l -> f x = []) -> flat_map f l = [].
Proof.
  induction l as [|x l IH]; intros H; simpl; [reflexivity|].
  rewrite (H x) by (left; reflexivity). apply IH. intros y Hy. apply H. right. exact Hy.
Qed.

Lemma reconciliation_same (attributes : list Attribute) :
  NoDup (map key attributes) -> reconciliation attributes attributes = [].
Proof.
  intros Hnd. unfold reconciliation. rewrite !flat_map_nil; [reflexivity| |].
  - intros p Hp. assert (Hin : includes (map key attributes) (key p) = true).
    { apply includes_In, in_map. exact Hp. }
    rewrite Hin. reflexivity.
  - intros a Ha. rewrite (previous_value_NoDup _ _ Hnd Ha).
    assert (Heq : value_eqb (value a) (value a) = true) by (apply value_eqb_eq; reflexivity).
    rewrite Heq. reflexivity.
Qed.

Lemma perform_all_total (actions : list AttributeAction) : forall (t : TreeT) w,
  Forall (fun action => exists a, action = ApplyAttribute a /\ applicable a = true) actions ->
  is_element t = true ->
  exists t' w', for_of actions perform t w = Ok t' w' /\ attribute_change t t'.
Proof.
  induction actions as [|action actions IH]; intros t w Hall Hel.
  - exists t, w. split; [reflexivity|apply attribute_change_refl].
  - inversion Hall as [|? ? (a & -> & Happ) Hrest]; subst.
    destruct (setAttribute_total t a w Hel Happ) as (t1 & w1 & Hset).
    pose proof (setAttribute_writes _ _ _ _ _ Hset) as (Hc1 & _).
    destruct (IH t1 w1 Hrest) as (t' & w' & Hrun & Hc2).
    { rewrite (attribute_change_is_element _ _ Hc1). exact Hel. }
    exists t', w'. split.
    + simpl. unfold bind. rewrite Hset. exact Hrun.
    + eapply attribute_change_trans; eassumption.
Qed.

Lemma patchAttributes_self tag children events registered attributes
    tag' children' events' registered' (t : TreeT) w :
  is_element t = true -> Forall (fun a => applicable a = true) attributes ->
  exists t' w',
    patchAttributes (Node tag children events registered attributes)
                    (Node tag' children' events' registered' attributes) t w = Ok t' w' /\
    attribute_change t t' /\
    (NoDup (map key attributes) -> t' = t /\ w' = w).
Proof.
  intros Hel Happ.
  destruct (perform_all_total (reconciliation attributes attributes) t w) as (t' & w' & H & Hc).
  { apply List.Forall_forall. intros [a|k] Hin.
    - apply reconciliation_apply in Hin as (Ha & _). exists a. split; [reflexivity|].
      rewrite List.Forall_forall in Happ. auto.
    - apply reconciliation_remove in Hin as (Hk & Hnk). contradiction. }
  { exact Hel. }
  exists t', w'. rewrite patchAttributes_reconciliation. split; [exact H|].
  split; [exact Hc|]. intros Hnd. rewrite (reconciliation_same _ Hnd) in H.
  simpl in H. inv_ret H. split; reflexivity.
Qed.

Lemma patch_children_self (rest : list HtmlT) :
  Forall patches_onto_itself rest ->
  forall pre tree status w,
    matches_children matches rest (drop (length pre) (childNodes tree)) ->
    every all_applicable rest ->
    exists rest' tree' w',
      patch_children patch (pre ++ rest) (length pre) rest tree status w
        = Ok (rest', tree',
              mkStatus (replaced status) (patched status + list_sum (map elements rest))
                       (removed status) (added status)) w' /\
      length (childNodes tree') = length (childNodes tree) /\
      is_element tree' = is_element tree /\
      shape tree' = shape tree /\
      (every distinct_keys rest -> observable tree' = observable tree).
Proof.
  induction rest as [|c rest IH]; intros Hall pre tree status w Hm Happ.
  - exists [], tree, w. simpl. rewrite Nat.add_0_r. destruct status. repeat split.
  - inversion Hall as [|? ? Hc Hrest]; subst. specialize (IH Hrest).
    destruct (drop (length pre) (childNodes tree)) as [|t0 ts] eqn:Hdrop; [destruct Hm|].
    destruct Hm as [Hmc Hmr]. destruct Happ as [Hac Har].
    assert (Hlookup : childNodes tree !! length pre = Some t0).
    { rewrite <- (Nat.add_0_r (length pre)), <- lookup_drop, Hdrop. reflexivity. }
    destruct (Hc t0 w Hmc Hac) as (p & w1 & Hp & Hstatus & Hrepl & Hshape & Hobs).
    assert (Hplace : in_place p = p_currentTree p) by (unfold in_place; rewrite Hrepl; reflexivity).
    destruct (IH (pre ++ [c]) (set_child (length pre) (in_place p) tree)
                 (add_status status (p_status p)) w1)
      as (rest' & tree' & w' & Hloop & Hlen & Hel & Hshape' & Hobs').
    { rewrite length_app, Nat.add_1_r. simpl. rewrite childNodes_set_child.
      rewrite drop_insert_lt by lia.
      rewrite (drop_S _ _ _ Hlookup) in Hdrop. injection Hdrop as Hts. rewrite Hts. exact Hmr. }
    { exact Har. }
    rewrite <- app_assoc, length_app, Nat.add_1_r in Hloop. simpl in Hloop.
    exists (p_nextView p :: rest'), tree', w'. split.
    { simpl patch_children. rewrite Hlookup, list_lookup_middle by reflexivity.
      unfold bind at 1. unfold bind at 1. rewrite Hp. unfold ret at 1. cbv beta iota.
      unfold bind. rewrite Hloop. unfold ret. do 2 f_equal.
      rewrite Hstatus. destruct status. simpl. f_equal; lia. }
    split. { rewrite Hlen. apply length_childNodes_set_child. }
    split. { rewrite Hel. unfold set_child. apply is_element_set_childNodes. }
    split.
    { rewrite Hshape'. eapply shape_set_child; [exact Hlookup|]. rewrite Hplace. exact Hshape. }
    intros [Hdc Hdr]. rewrite (Hobs' Hdr).
    eapply observable_set_child; [exact Hlookup|]. rewrite Hplace. auto.
Qed.

Lemma patch_self (A : HtmlT) : patches_onto_itself A.
Proof.
  induction A as [content|tag children events registered attributes IH]
    using Html_rect_children; intros tree w Hm Happ.
  - exists (mkPatched (Text content) tree None (mkStatus 0 0 0 0)), w.
    simpl. rewrite String.eqb_refl. repeat split.
  - destruct Hm as [Hel Hm]. destruct Happ as [Happ Hevery].
    set (t1 := set_listeners (without registered (listeners tree)
                                ++ new_listeners (nextClosure w) events) tree).
    destruct (patchAttributes_self tag children events registered attributes
                tag children events registered t1
                (mkWorld (nextClosure w + length events)
                   ((calls w ++ map (fun r => RemoveEventListener (name (event r)) (listener r))
                                    registered)
                      ++ new_calls (nextClosure w) events) (console w)))
      as (t2 & w2 & Hattrs & Hchange & Hsame).
    { unfold t1. rewrite is_element_set_listeners. exact Hel. }
    { exact Happ. }
    assert (Hcs2 : childNodes t2 = childNodes tree).
    { rewrite (attribute_change_childNodes _ _ Hchange). apply childNodes_set_listeners. }
    destruct (patch_children_self children IH [] t2 (mkStatus 0 0 0 0) w2)
      as (children' & t3 & w3 & Hloop & Hlen & Hel3 & Hshape & Hobs).
    { simpl. rewrite drop_0, Hcs2. exact Hm. }
    { exact Hevery. }
    simpl in Hloop.
    assert (Hcount : length (childNodes t3) = length children).
    { rewrite Hlen, Hcs2. clear - Hm. revert Hm. generalize (childNodes tree).
      induction children as [|c cs IHcs]; intros [|t ts] Hm; simpl in *;
        try contradiction; [reflexivity|]. f_equal. apply IHcs. tauto. }
    eexists _, _. split.
    { rewrite patch_nodes_eq by apply Tag_eqb_refl.
      unfold bind at 1. rewrite patchEvents_nodes. cbn [fst snd].
      unfold bind at 1. fold t1. rewrite Hattrs.
      unfold bind at 1. rewrite Hloop. cbn [fst snd].
      unfold bind. rewrite remove_excess_spec by reflexivity. unfold ret. reflexivity. }
    simpl. rewrite take_ge by lia. rewrite set_childNodes_same, Hcount, Nat.sub_diag.
    split; [reflexivity|]. split; [reflexivity|]. split.
    { rewrite Hshape, (attribute_change_shape _ _ Hchange). apply shape_set_listeners. }
    intros [Hnd Hdk]. rewrite (Hobs Hdk). destruct (Hsame Hnd) as [-> _].
    apply observable_set_listeners.
Qed.

(** *** What [buildTree] builds *)

Lemma build_children_built (cs : list HtmlT) :
  Forall (fun c : HtmlT => forall w c' t w',
            buildTree c w = Ok (c', t) w' -> matches c' t /\ all_applicable c') cs ->
  forall node w cs' node' w',
    build_children buildTree cs node w = Ok (cs', node') w' ->
    exists ts, node' = set_childNodes (childNodes node ++ ts) node /\
               matches_children matches cs' ts /\ every all_applicable cs'.
Proof.
  induction cs as [|c cs IH]; intros Hall node w cs' node' w' H; simpl in H.
  - inv_ret H. match goal with E : _ = (cs', node') |- _ => injection E as <- <- end.
    exists []. rewrite app_nil_r, set_childNodes_same. repeat split.
  - inversion Hall as [|? ? Hc Hcs]; subst.
    inv_bind H. destruct r as [c1 built]. inv_bind H. inv_bind H.
    destruct r0 as [rest node2]. inv_ret H.
    match goal with E : _ = (cs', node') |- _ => injection E as <- <- end.
    match goal with E : appendChild _ _ _ = _ |- _ =>
      apply appendChild_Ok in E as (-> & Hel & _) end.
    destruct (Hc _ _ _ _ Hrun) as [Hm Ha].
    destruct (IH Hcs _ _ _ _ _ Hrun1) as (ts & -> & Hms & Has).
    exists (built :: ts). rewrite childNodes_set_childNodes by exact Hel.
    rewrite <- app_assoc. simpl. split; [destruct node; reflexivity|]. repeat split; assumption.
Qed.

Lemma build_built (h : HtmlT) : forall w h' t w',
  buildTree h w = Ok (h', t) w' -> matches h' t /\ all_applicable h'.
Proof.
  induction h as [content|tag children events registered attributes IH]
    using Html_rect_children; intros w h' t w' H; simpl in H.
  - inv_bind H. inv_ret H. match goal with E : _ = (h', t) |- _ => injection E as <- <- end.
    simpl. auto.
  - inv_bind H. injection Hrun as <- <-.
    inv_bind H. rewrite subscribe_all in Hrun. injection Hrun as <- <-.
    inv_bind H. destruct r as [children' node'].
    inv_bind H. inv_ret H.
    match goal with E : _ = (h', t) |- _ => injection E as <- <- end.
    destruct (build_children_built children IH _ _ _ _ _ Hrun) as (ts & -> & Hms & Has).
    apply apply_all_applicable in Hrun0 as (Hchange & Happ).
    simpl. rewrite (attribute_change_is_element _ _ Hchange).
    rewrite (attribute_change_childNodes _ _ Hchange). simpl. auto.
Qed.

Lemma elements_description (h : HtmlT) : elements (description h) = elements h.
Proof.
  induction h as [content|tag children events registered attributes IH]
    using Html_rect_children; simpl; [reflexivity|].
  f_equal. f_equal. rewrite map_map. apply map_ext_Forall. exact IH.
Qed.

Lemma distinct_keys_description (h : HtmlT) :
  distinct_keys (description h) <-> distinct_keys h.
Proof.
  induction h as [content|tag children events registered attributes IH]
    using Html_rect_children; simpl; [reflexivity|].
  rewrite !every_Forall, Forall_fmap. split; intros [Hnd Hall]; (split; [exact Hnd|]).
  - rewrite List.Forall_forall in *. intros c Hc. apply (IH c Hc), Hall, Hc.
  - rewrite List.Forall_forall in *. intros c Hc. apply (IH c Hc), Hall, Hc.
Qed.

(** C5, as amended -- a view patched against itself on the tree built
    from it.  Once [buildTree] has built the tree, [patch] of the built
    view against itself completes without replacing the node, and
    reports [patched] = number of elements of the view, [replaced] =
    [added] = [removed] = 0; the tree keeps tags, text and nesting; and
    if no element of the view lists an attribute key twice it keeps its
    attributes, properties and classes as well: what can be observed of
    it is what [buildTree] built. *)
Theorem patch_onto_built_tree (A : HtmlT) w A1 t1 w1 :
  buildTree A w = Ok (A1, t1) w1 ->
  exists p w2,
    patch A1 A1 t1 w1 = Ok p w2 /\
    p_status p = mkStatus 0 (elements A) 0 0 /\
    p_replacement p = None /\
    shape (p_currentTree p) = shape t1 /\
    (distinct_keys A -> observable (p_currentTree p) = observable t1).
Proof.
  intros Hbuild. destruct (build_built _ _ _ _ _ Hbuild) as [Hm Ha].
  destruct (patch_self A1 t1 w1 Hm Ha) as (p & w2 & Hp & Hstatus & Hrepl & Hshape & Hobs).
  pose proof (build_description _ _ _ _ _ Hbuild) as Hdesc.
  exists p, w2. split; [exact Hp|]. split.
  { rewrite Hstatus, <- (elements_description A1), Hdesc, elements_description. reflexivity. }
  split; [exact Hrepl|]. split; [exact Hshape|].
  intros Hdk. apply Hobs. apply distinct_keys_description.
  rewrite Hdesc. apply distinct_keys_description. exact Hdk.
Qed.


(** C4 -- two text nodes: with equal contents [patch] does nothing at
    all (same node, no replacement, no host call, an all-zero report);
    with different contents it builds the next text node, hands it to
    [replaceWith] and reports [replaced = 1]. *)
Theorem patch_text_text (a b : string) tree w :
  (a = b ->
   patch (Text a) (Text b) tree w
   = Ok (mkPatched (Text b) tree None (mkStatus 0 0 0 0)) w) /\
  (a <> b ->
   patch (Text a) (Text b) tree w
   = Ok (mkPatched (Text b) tree (Some (TextNode b [])) (mkStatus 1 0 0 0))
        (mkWorld (nextClosure w) ((calls w ++ [CreateTextNode b]) ++ [ReplaceWith])
                 (console w))).
Proof.
  split; intros Hab; simpl.
  - apply String.eqb_eq in Hab. rewrite Hab. reflexivity.
  - apply String.eqb_neq in Hab. rewrite Hab. reflexivity.
Qed.

End Properties.

(** ** The dispatch loop *)

Section Loop.

Context {NativeEvent message appModel : Type}.
Implicit Types (program : Program NativeEvent message appModel)
               (rt : Runtime NativeEvent message appModel)
               (rp : RunningProgram NativeEvent message appModel)
               (w : World).

Lemma log_status_Ok status w :
  log_status status w
  = Ok tt (mkWorld (nextClosure w) (calls w)
             ((console w ++ [ConsoleLog "Patching status:"])
                ++ [ConsoleLogStatus (replaced status) (patched status)
                                     (removed status) (added status)])).
Proof. reflexivity. Qed.

(** A completed dispatch on a runtime that has a tree. *)
Lemma listener_of_Ok program rt msg w rt' w' :
  currentTree rt <> null ->
  listener_of program rt msg w = Ok rt' w' ->
  currentModel rt' = fst (update program msg (currentModel rt)) /\
  description (previousView rt') = description (view program (currentModel rt')) /\
  currentTree rt' <> null.
Proof.
  intros Hnull H. unfold listener_of in H.
  destruct (currentTree rt) as [| |tree]; [congruence| |];
    destruct (update program msg (currentModel rt)) as [m' deferred]; simpl.
  - inv_bind H. inv_bind H. inv_ret H. simpl. repeat split; congruence.
  - inv_bind H. inv_bind H. inv_ret H. simpl.
    repeat split; [|congruence]. eapply patch_description; eassumption.
Qed.

Lemma deliver_listener_of program msgs : forall rt w rt' w',
  currentTree rt <> null ->
  deliver (listener_of program) msgs rt w = Ok rt' w' ->
  currentModel rt' = advance program msgs (currentModel rt) /\
  (description (previousView rt) = description (view program (currentModel rt)) ->
   description (previousView rt') = description (view program (currentModel rt'))) /\
  currentTree rt' <> null.
Proof.
  induction msgs as [|msg msgs IH]; intros rt w rt' w' Hnull H; simpl in H.
  - inv_ret H. tauto.
  - inv_bind H. destruct (listener_of_Ok _ _ _ _ _ _ Hnull Hrun) as (Hm & Hd & Hn).
    destruct (IH _ _ _ _ Hn H) as (Hm' & Hd' & Hn').
    repeat split; [|tauto|assumption].
    rewrite Hm'. simpl. rewrite Hm. reflexivity.
Qed.

Lemma runProgram_root program root w rp rt w' :
  runProgram program (Some root) w = Ok (rp, rt) w' ->
  model rp = initialModel program /\ send rp = listener_of program /\
  currentModel rt = initialModel program /\ currentTree rt <> null /\
  description (previousView rt) = description (view program (currentModel rt)).
Proof.
  unfold runProgram. intros H. inv_bind H. destruct r as [previousView' tree].
  inv_bind H. inv_ret H.
  match goal with E : _ = (rp, rt) |- _ => injection E as <- <- end. simpl.
  repeat split; try congruence. eapply build_description; eassumption.
Qed.

Lemma runProgramWithHydration_root program root w rp rt w' :
  runProgramWithHydration program (Some root) w = Ok (rp, rt) w' ->
  model rp = initialModel program /\ send rp = listener_of program /\
  currentModel rt = initialModel program /\ currentTree rt <> null.
Proof.
  unfold runProgramWithHydration. intros H.
  destruct (first_element_child root) as [| |tree].
  - inv_bind H. inv_ret H.
    match goal with E : _ = (rp, rt) |- _ => injection E as <- <- end. simpl.
    repeat split; congruence.
  - inv_bind H. inv_ret H.
    match goal with E : _ = (rp, rt) |- _ => injection E as <- <- end. simpl.
    repeat split; congruence.
  - inv_bind H. destruct r as [previousView' tree']. inv_ret H.
    match goal with E : _ = (rp, rt) |- _ => injection E as <- <- end. simpl.
    repeat split; congruence.
Qed.

(** C8 -- no element with id [root]: [runProgram] writes the one error
    line on the console, makes no host call and creates no closure (no
    tree is built), and returns a program whose [model] is
    [initialModel] and whose [send] hands back the runtime and the world
    as they are, whatever the message. *)
Theorem runProgram_without_root program w :
  exists rp rt,
    runProgram program None w
    = Ok (rp, rt) (mkWorld (nextClosure w) (calls w)
                           (console w ++ [ConsoleError forgot_root])) /\
    model rp = initialModel program /\
    currentTree rt = null /\
    forall rt' msg w', send rp rt' msg w' = Ok rt' w'.
Proof.
  eexists _, _. split; [reflexivity|]. simpl. repeat split.
Qed.

(** C9 -- one dispatch.  Without a tree ([currentTree] still [null]) the
    call returns at once.  With a tree it is: [update] on the current
    model, [view] of the new model, [patch] of the previous view against
    that next view on the tree, the report logged, and the next view
    (carrying what [patch] registered on it) kept as the previous one;
    an exception of [patch] ends the call.  After every dispatch that
    completes on a tree the previous view is, as a description, the view
    of the current model, and that holds along every sequence of
    dispatches of a program started by [runProgram]. *)
Theorem dispatch_cycle program rt msg w :
  (currentTree rt = null -> listener_of program rt msg w = Ok rt w) /\
  (forall tree, currentTree rt = object tree ->
     let currentModel' := fst (update program msg (currentModel rt)) in
     let nextView := view program currentModel' in
     listener_of program rt msg w
     = match patch (previousView rt) nextView tree w with
       | Ok p w1 =>
           Ok (mkRuntime currentModel' (p_nextView p) (object (p_currentTree p))
                 (match displaced rt with Some d => Some d | None => p_replacement p end)
                 (timers rt ++ snd (update program msg (currentModel rt))))
              (mkWorld (nextClosure w1) (calls w1)
                 ((console w1 ++ [ConsoleLog "Patching status:"])
                    ++ [ConsoleLogStatus (replaced (p_status p)) (patched (p_status p))
                                         (removed (p_status p)) (added (p_status p))]))
       | Throw e => Throw e
       end) /\
  (forall rt' w', currentTree rt <> null ->
     listener_of program rt msg w = Ok rt' w' ->
     currentModel rt' = fst (update program msg (currentModel rt)) /\
     description (previousView rt') = description (view program (currentModel rt'))) /\
  (forall root w0 rp rt0 w1 msgs rt' w',
     runProgram program (Some root) w0 = Ok (rp, rt0) w1 ->
     deliver (send rp) msgs rt0 w1 = Ok rt' w' ->
     currentModel rt' = advance program msgs (initialModel program) /\
     description (previousView rt') = description (view program (currentModel rt'))).
Proof.
  repeat split.
  - intros Hnull. unfold listener_of. rewrite Hnull. reflexivity.
  - intros tree Htree. unfold listener_of. rewrite Htree.
    destruct (update program msg (currentModel rt)) as [m' deferred]. simpl.
    unfold bind. destruct (patch (previousView rt) (view program m') tree w); reflexivity.
  - eapply listener_of_Ok; eassumption.
  - eapply listener_of_Ok; eassumption.
  - destruct (runProgram_root _ _ _ _ _ _ H) as (_ & Hsend & Hm & Hn & _).
    rewrite Hsend in H0. rewrite <- Hm. eapply deliver_listener_of; eassumption.
  - destruct (runProgram_root _ _ _ _ _ _ H) as (_ & Hsend & Hm & Hn & Hd).
    rewrite Hsend in H0.
    destruct (deliver_listener_of _ _ _ _ _ _ Hn H0) as (_ & Hd' & _). auto.
Qed.

(** C10 -- the [model] field of what [runProgram] and
    [runProgramWithHydration] return is [initialModel]; the messages sent
    afterwards move the model the runtime keeps ([currentModel], which
    follows [update]) and have no access to that field. *)
Theorem running_model_is_initial program root w rp rt0 w0 :
  runProgram program root w = Ok (rp, rt0) w0 \/
  runProgramWithHydration program root w = Ok (rp, rt0) w0 ->
  model rp = initialModel program /\
  forall msgs rt w1,
    deliver (send rp) msgs rt0 w0 = Ok rt w1 ->
    model rp = initialModel program /\
    (root <> None -> currentModel rt = advance program msgs (initialModel program)).
Proof.
  intros H.
  assert (Hfacts : model rp = initialModel program /\
                   (root <> None -> send rp = listener_of program /\
                      currentModel rt0 = initialModel program /\ currentTree rt0 <> null)).
  { destruct root as [root|].
    - destruct H as [H|H].
      + apply runProgram_root in H. intuition.
      + apply runProgramWithHydration_root in H. intuition.
    - split; [|congruence].
      destruct H as [H|H]; simpl in H; inv_bind H; inv_ret H;
        match goal with E : _ = (rp, rt0) |- _ => injection E as <- <- end; reflexivity. }
  destruct Hfacts as [Hmodel Hroot]. split; [exact Hmodel|].
  intros msgs rt w1 Hrun. split; [exact Hmodel|]. intros Hsome.
  destruct (Hroot Hsome) as (Hsend & Hm & Hn). rewrite Hsend in Hrun. rewrite <- Hm.
  eapply deliver_listener_of; eassumption.
Qed.

End Loop.

(** ** The statements on small inputs, and the application *)

Section Concrete.

Import Scenario.

(** C4, tried on ["x"] against ["x"] and against ["y"]. *)
Lemma patch_text_text_witness :
  patch (Text "x") (Text "x") (TextNode "x" [] : Live) clean
    = Ok (mkPatched (Text "x") (TextNode "x" []) None (mkStatus 0 0 0 0)) clean /\
  patch (Text "x") (Text "y") (TextNode "x" [] : Live) clean
    = Ok (mkPatched (Text "y") (TextNode "x" []) (Some (TextNode "y" []))
                    (mkStatus 1 0 0 0))
         (mkWorld 0 [CreateTextNode "y"; ReplaceWith] []).
Proof.
  split.
  - apply (proj1 (patch_text_text "x" "x" (TextNode "x" []) clean)). reflexivity.
  - apply (proj2 (patch_text_text "x" "y" (TextNode "x" []) clean)). discriminate.
Defined.

(** C1, tried on a [div] that loses its only child. *)
Lemma patch_removes_excess_witness :
  patch one_child no_child one_child_tree clean
    = Ok (mkPatched no_child no_child_tree None (mkStatus 0 1 1 0))
         (mkWorld 0 [RemoveChild 0] []) /\
  length (childNodes no_child_tree) = 0.
Proof.
  assert (H : patch one_child no_child one_child_tree clean
              = Ok (mkPatched no_child no_child_tree None (mkStatus 0 1 1 0))
                   (mkWorld 0 [RemoveChild 0] [])) by reflexivity.
  split; [exact H|].
  destruct (patch_removes_excess TagDiv [Text "a"] [] [] [] TagDiv [] [] [] []
              one_child_tree clean _ _ eq_refl H)
    as (pv & t1 & w1 & t2 & w2 & cs & t3 & st & w3 & _ & _ & _ & _ & _ & Hlength & _).
  exact Hlength.
Defined.

(** The removal loop of the earlier listing, started at the last
    child: it keeps the first [n + 1] children, one more than the next
    view has. *)
Lemma earlier_remove_excess_spec n : forall m (t : Live) status w,
  m = length (childNodes t) ->
  Earlier.remove_excess m n t status w
  = Ok (set_childNodes (take (S n) (childNodes t)) t,
        mkStatus (replaced status) (patched status)
                 (removed status + (m - S n)) (added status))
       (mkWorld (nextClosure w) (calls w ++ removal_calls (S n) m) (console w)).
Proof.
  induction m as [|i IH]; intros t status w Hm.
  - simpl. unfold ret, removal_calls. simpl.
    destruct (childNodes t) eqn:Hcs; [|discriminate].
    rewrite take_nil, <- Hcs, set_childNodes_same, app_nil_r, Nat.add_0_r.
    destruct status, w; reflexivity.
  - simpl. destruct (Z.of_nat n <? Z.of_nat i)%Z eqn:Hcmp.
    + apply Z.ltb_lt in Hcmp. assert (Hle : S n <= i) by lia.
      unfold bind, removeChild.
      destruct (childNodes t !! i) as [last|] eqn:Hlast.
      2:{ apply lookup_ge_None in Hlast. lia. }
      simpl.
      assert (Hel : is_element t = true).
      { destruct t; [reflexivity|]. simpl in Hm. discriminate. }
      assert (Hdel : delete i (childNodes t) = take i (childNodes t)).
      { rewrite delete_take_drop, drop_ge by lia. apply app_nil_r. }
      rewrite IH.
      2:{ rewrite childNodes_set_childNodes by exact Hel.
          rewrite Hdel, length_take. lia. }
      rewrite childNodes_set_childNodes by exact Hel. rewrite Hdel.
      cbn [nextClosure calls console replaced patched removed added].
      rewrite take_take. replace (S n `min` i) with (S n) by lia.
      assert (Hcalls : removal_calls (S n) (S i) = RemoveChild i :: removal_calls (S n) i).
      { unfold removal_calls. replace (S i - S n) with (S (i - S n)) by lia.
        rewrite seq_S, rev_app_distr. simpl. repeat f_equal. lia. }
      rewrite Hcalls, <- app_assoc.
      replace (S (removed status) + (i - S n)) with (removed status + (i - n)) by lia.
      destruct t; [|discriminate]. reflexivity.
    + apply Z.ltb_ge in Hcmp. assert (Hgt : i <= n) by lia.
      unfold ret, removal_calls. cbn [Nat.sub]. replace (i - n) with 0 by lia.
      cbn [seq rev map].
      rewrite take_ge by lia. rewrite set_childNodes_same, app_nil_r, Nat.add_0_r.
      destruct status, w; reflexivity.
Qed.

(** C1 on the earlier listing: the same [div] keeps the child it
    should lose, and reports no removal. *)
Theorem earlier_patch_keeps_excess_child :
  Earlier.patch one_child no_child one_child_tree clean
    = Ok (mkPatched no_child one_child_tree None (mkStatus 0 1 0 0)) clean /\
  childNodes one_child_tree !! 0 = Some (TextNode "a" []) /\
  patch one_child no_child one_child_tree clean
    = Ok (mkPatched no_child no_child_tree None (mkStatus 0 1 1 0))
         (mkWorld 0 [RemoveChild 0] []).
Proof. repeat split. Qed.


(** C3, tried on a button whose view has not changed: the listener of
    closure 0 goes, a listener of the new closure 1 comes, and the view
    records it. *)
Lemma patchEvents_resubscribes_witness :
  patch clickable_built clickable (clickable_tree 0) (mkWorld 1 [] [])
    = Ok (mkPatched (Node TagButton [] [click] [mkRegistration click 1] [])
                    (clickable_tree 1) None (mkStatus 0 1 0 0))
         (mkWorld 2 [RemoveEventListener "click" 0; AddEventListener "click" 1] []) /\
  listeners (clickable_tree 1) = [mkListener "click" 1 true click].
Proof.
  assert (H : patch clickable_built clickable (clickable_tree 0) (mkWorld 1 [] [])
    = Ok (mkPatched (Node TagButton [] [click] [mkRegistration click 1] [])
                    (clickable_tree 1) None (mkStatus 0 1 0 0))
         (mkWorld 2 [RemoveEventListener "click" 0; AddEventListener "click" 1] []))
    by reflexivity.
  split; [exact H|].
  destruct (patchEvents_resubscribes TagButton [] [click] [mkRegistration click 0] []
              TagButton [] [click] [] [] (clickable_tree 0) (mkWorld 1 [] []))
    as (_ & _ & _ & Hpatch).
  destruct (Hpatch _ _ eq_refl H) as [Hlisteners _]. exact Hlisteners.
Defined.

(** C5 as it was stated fails on a view that repeats a key: the tree is
    built with [x = "a"]; patching the view against itself writes
    [x = "b"] and stops there. *)
Lemma patch_onto_built_tree_counterexample :
  buildTree repeated clean
    = Ok (repeated, repeated_tree "a")
         (mkWorld 0 [CreateElement "DIV"; SetAttribute "x" "a"; SetAttribute "x" "b";
                     SetAttribute "x" "a"] []) /\
  patch repeated repeated (repeated_tree "a")
        (mkWorld 0 [CreateElement "DIV"; SetAttribute "x" "a"; SetAttribute "x" "b";
                    SetAttribute "x" "a"] [])
    = Ok (mkPatched repeated (repeated_tree "b") None (mkStatus 0 1 0 0))
         (mkWorld 0 [CreateElement "DIV"; SetAttribute "x" "a"; SetAttribute "x" "b";
                     SetAttribute "x" "a"; SetAttribute "x" "b"] []) /\
  observable (repeated_tree "b") <> observable (repeated_tree "a").
Proof.
  split; [vm_compute; reflexivity|]. split; [vm_compute; reflexivity|].
  intros H. apply (f_equal (fun t => attrs_of t !! "x")) in H. vm_compute in H.
  discriminate.
Qed.

(** C5 as amended, tried on the view with attributes [a] and [b]. *)
Lemma patch_onto_built_tree_witness :
  buildTree before clean
    = Ok (before, before_tree)
         (mkWorld 0 [CreateElement "DIV"; SetAttribute "a" "1"; SetAttribute "b" "2"] []) /\
  exists p w2,
    patch before before before_tree
          (mkWorld 0 [CreateElement "DIV"; SetAttribute "a" "1"; SetAttribute "b" "2"] [])
      = Ok p w2 /\
    p_status p = mkStatus 0 1 0 0.
Proof.
  assert (H : buildTree before clean
    = Ok (before, before_tree)
         (mkWorld 0 [CreateElement "DIV"; SetAttribute "a" "1"; SetAttribute "b" "2"] []))
    by (vm_compute; reflexivity).
  split; [exact H|].
  destruct (patch_onto_built_tree before clean _ _ _ H) as (p & w2 & Hp & Hstatus & _).
  exists p, w2. split; [exact Hp|exact Hstatus].
Defined.

Lemma started :
  runProgram App.program (Some []) clean
  = Ok (mkRunningProgram App.initialModel (listener_of App.program), started_runtime)
       started_world.
Proof.
  assert (Hbuilt : buildTree (App.view App.initialModel) clean
                   = Ok (built_view, built_tree) built_world) by (vm_compute; reflexivity).
  unfold runProgram. simpl view. simpl initialModel.
  rewrite (bind_eq _ _ _ _ _ Hbuilt). reflexivity.
Qed.

Lemma sent :
  deliver (listener_of App.program) ada started_runtime started_world
  = Ok sent_runtime sent_world.
Proof. vm_compute. reflexivity. Qed.

(** C6 -- from the initial model, [SetCurrentName "Ada"] then [Click]
    give the model with no current name and ["Ada"] as the one name and
    the one checked name; so does the running program when the two
    messages are sent to it. *)
Theorem update_ada_then_click :
  App.initialModel = App.mkModel "" [] [] /\
  fst (App.update App.Click
         (fst (App.update (App.SetCurrentName "Ada") App.initialModel)))
    = App.mkModel "" ["Ada"] ["Ada"] /\
  advance App.program [App.SetCurrentName "Ada"; App.Click] App.initialModel
    = App.mkModel "" ["Ada"] ["Ada"] /\
  runProgram App.program (Some []) clean
    = Ok (mkRunningProgram App.initialModel (listener_of App.program), started_runtime)
         started_world /\
  deliver (listener_of App.program) [App.SetCurrentName "Ada"; App.Click]
          started_runtime started_world
    = Ok sent_runtime sent_world /\
  currentModel sent_runtime = App.mkModel "" ["Ada"] ["Ada"].
Proof.
  split; [reflexivity|]. split; [reflexivity|]. split; [reflexivity|].
  split; [exact started|]. split; [exact sent|]. reflexivity.
Qed.

(** C9, tried on the application: two dispatches after [runProgram]. *)
Lemma dispatch_cycle_witness :
  runProgram App.program (Some []) clean
    = Ok (mkRunningProgram App.initialModel (listener_of App.program), started_runtime)
         started_world /\
  deliver (listener_of App.program) ada started_runtime started_world
    = Ok sent_runtime sent_world /\
  currentModel sent_runtime = advance App.program ada App.initialModel /\
  description (previousView sent_runtime) = description (App.view (currentModel sent_runtime)).
Proof.
  split; [exact started|]. split; [exact sent|].
  destruct (dispatch_cycle App.program started_runtime App.Noop clean)
    as (_ & _ & _ & Hsequence).
  exact (Hsequence [] clean _ _ _ ada _ _ started sent).
Defined.

(** C10, tried on the application: the returned [model] is the initial
    model while the runtime has moved on. *)
Lemma running_model_is_initial_witness :
  runProgram App.program (Some []) clean
    = Ok (mkRunningProgram App.initialModel (listener_of App.program), started_runtime)
         started_world /\
  deliver (listener_of App.program) ada started_runtime started_world
    = Ok sent_runtime sent_world /\
  model (mkRunningProgram App.initialModel (listener_of App.program)) = App.initialModel /\
  currentModel sent_runtime = advance App.program ada App.initialModel /\
  currentModel sent_runtime <> App.initialModel.
Proof.
  split; [exact started|]. split; [exact sent|].
  destruct (running_model_is_initial App.program (Some []) clean _ _ _ (or_introl started))
    as [Hmodel Hsent].
  split; [exact Hmodel|]. split.
  - apply (Hsent ada sent_runtime sent_world sent). discriminate.
  - discriminate.
Defined.

(** C7, tried on the built button view and a bare button. *)
Lemma hydrate_attaches_only_witness :
  exists next' tree' w',
    hydrate clickable (HTMLElement "BUTTON" ∅ ∅ [] [] [] : Live) clean = Ok (next', tree') w' /\
    observable tree' = HTMLElement "BUTTON" ∅ ∅ [] [] [] /\
    listeners_added clean 1 w'.
Proof.
  destruct (hydrate_attaches_only clickable (HTMLElement "BUTTON" ∅ ∅ [] [] []) clean)
    as (next' & tree' & w' & Hh & Hobs & _ & Hadd & _).
  exists next', tree', w'. split; [exact Hh|]. split; [exact Hobs|exact Hadd].
Defined.

End Concrete.

(** * Further properties of the code *)

Section Further.

Context {NativeEvent message : Type}.
Abbreviation HtmlF := (Html NativeEvent message).
Abbreviation TreeF := (Tree NativeEvent message).
Implicit Types (h prev next : HtmlF) (t tree : TreeF) (w : World).

(** ** When [buildTree] completes, and what it builds *)

Lemma apply_all_total (attributes : list Attribute) : forall t w,
  Forall (fun a => applicable a = true) attributes -> is_element t = true ->
  exists t' w',
    for_of attributes (fun a n => setAttribute n a) t w = Ok t' w' /\
    attribute_change t t'.
Proof.
  induction attributes as [|a attributes IH]; intros t w Hall Hel.
  - exists t, w. split; [reflexivity|apply attribute_change_refl].
  - inversion Hall as [|? ? Happ Hrest]; subst.
    destruct (setAttribute_total t a w Hel Happ) as (t1 & w1 & Hset).
    pose proof (setAttribute_writes _ _ _ _ _ Hset) as (Hc1 & _).
    destruct (IH t1 w1 Hrest) as (t' & w' & Hrun & Hc2).
    { rewrite (attribute_change_is_element _ _ Hc1). exact Hel. }
    exists t', w'. split.
    + simpl. unfold bind. rewrite Hset. exact Hrun.
    + eapply attribute_change_trans; eassumption.
Qed.

Lemma build_children_total (cs : list HtmlF) :
  Forall (fun c : HtmlF => forall w, all_applicable c ->
            exists c' t w', buildTree c w = Ok (c', t) w' /\ shape t = skeleton c) cs ->
  every all_applicable cs ->
  forall node w, is_element node = true ->
  exists cs' ts w',
    build_children buildTree cs node w
      = Ok (cs', set_childNodes (childNodes node ++ ts) node) w' /\
    map shape ts = map skeleton cs.
Proof.
  induction cs as [|c cs IH]; intros Hall Happ node w Hel.
  - exists [], [], w. simpl. rewrite app_nil_r, set_childNodes_same. split; reflexivity.
  - inversion Hall as [|? ? Hc Hcs]; subst. destruct Happ as [Hac Has].
    destruct (Hc w Hac) as (c' & t & w1 & Hbuild & Hshape).
    destruct (IH Hcs Has (set_childNodes (childNodes node ++ [t]) node)
                 (mkWorld (nextClosure w1) (calls w1 ++ [AppendChild]) (console w1)))
      as (cs' & ts & w' & Hrest & Hshapes).
    { rewrite is_element_set_childNodes. exact Hel. }
    exists (c' :: cs'), (t :: ts), w'. split.
    + simpl. unfold bind at 1. rewrite Hbuild. cbv beta iota.
      destruct node as [tn a p c0 ls ns|]; [|discriminate].
      unfold bind at 1. simpl appendChild. unfold bind at 1. simpl.
      unfold bind. simpl in Hrest. rewrite Hrest. unfold ret.
      rewrite <- app_assoc. reflexivity.
    + simpl. congruence.
Qed.

Lemma buildTree_node_eq tag (children : list HtmlF) events registered attributes w :
  buildTree (Node tag children events registered attributes) w
  = bind (createElement tag)
      (fun node =>
         bind (for_of events subscribe (node, registered))
           (fun r =>
              bind (build_children buildTree children (fst r))
                (fun b =>
                   bind (for_of attributes (fun a n => setAttribute n a) (snd b))
                     (fun node =>
                        ret (Node tag (fst b) events (snd r) attributes, node))))) w.
Proof.
  cbn [buildTree]. unfold bind.
  destruct (createElement tag w) as [node w1|]; [|reflexivity].
  destruct (for_of events subscribe (node, registered) w1) as [[node1 regs] w2|];
    [|reflexivity]. cbn [fst snd].
  destruct (build_children buildTree children node1 w2) as [[cs node2] w3|]; reflexivity.
Qed.

Lemma createElement_Ok tag w :
  createElement tag w
  = Ok (HTMLElement (tagName_of tag) ∅ ∅ [] [] [] : TreeF)
       (mkWorld (nextClosure w) (calls w ++ [CreateElement (tagName_of tag)]) (console w)).
Proof. reflexivity. Qed.

Lemma build_total (h : HtmlF) : forall w,
  all_applicable h ->
  exists h' t w', buildTree h w = Ok (h', t) w' /\ shape t = skeleton h.
Proof.
  induction h as [content|tag children events registered attributes IH]
    using Html_rect_children; intros w Happ.
  - eexists _, _, _. split; reflexivity.
  - destruct Happ as [Hattrs Hchildren].
    pose proof (subscribe_all events (HTMLElement (tagName_of tag) ∅ ∅ [] [] [] : TreeF)
                  registered
                  (mkWorld (nextClosure w) (calls w ++ [CreateElement (tagName_of tag)])
                           (console w))) as Hsub.
    match type of Hsub with _ = Ok (?node1, ?regs) ?w1 =>
      destruct (build_children_total children IH Hchildren node1 w1 eq_refl)
        as (cs' & ts & w2 & Hbuilt & Hshapes);
      destruct (apply_all_total attributes
                  (set_childNodes (childNodes node1 ++ ts) node1) w2 Hattrs eq_refl)
        as (t3 & w3 & Hset & Hchange)
    end.
    eexists _, t3, w3. split.
    + rewrite buildTree_node_eq.
      rewrite (bind_eq _ _ _ _ _ (createElement_Ok tag w)).
      rewrite (bind_eq _ _ _ _ _ Hsub). cbn [fst snd].
      rewrite (bind_eq _ _ _ _ _ Hbuilt). cbn [fst snd].
      rewrite (bind_eq _ _ _ _ _ Hset). reflexivity.
    + rewrite (attribute_change_shape _ _ Hchange). simpl. rewrite Hshapes. reflexivity.
Qed.

Lemma all_applicable_description (h : HtmlF) :
  all_applicable (description h) <-> all_applicable h.
Proof.
  induction h as [content|tag children events registered attributes IH]
    using Html_rect_children; simpl; [reflexivity|].
  rewrite !every_Forall, Forall_fmap. split; intros [Ha Hall]; (split; [exact Ha|]).
  - rewrite List.Forall_forall in *. intros c Hc. apply (IH c Hc), Hall, Hc.
  - rewrite List.Forall_forall in *. intros c Hc. apply (IH c Hc), Hall, Hc.
Qed.

Lemma build_shape (h : HtmlF) w h' t w' :
  buildTree h w = Ok (h', t) w' -> shape t = skeleton h.
Proof.
  intros H. assert (Happ : all_applicable h).
  { apply all_applicable_description.
    rewrite <- (build_description _ _ _ _ _ H). apply all_applicable_description.
    exact (proj2 (build_built _ _ _ _ _ H)). }
  destruct (build_total h w Happ) as (h2 & t2 & w2 & H2 & Hshape).
  rewrite H in H2. injection H2 as -> -> ->. exact Hshape.
Qed.


(** ** [patch] on a tree that has the shape of the previous view *)

Lemma Tag_eqb_eq a b : Tag_eqb a b = true -> a = b.
Proof. destruct a, b; simpl; congruence. Qed.

Lemma set_childNodes_twice cs cs' t :
  set_childNodes cs (set_childNodes cs' t) = set_childNodes cs t.
Proof. destruct t; reflexivity. Qed.

Lemma plan_total (actions : list AttributeAction) : forall t w,
  Forall (fun action => match action with
                        | ApplyAttribute a => applicable a = true
                        | RemoveKey _ => True
                        end) actions ->
  is_element t = true ->
  exists t' w', for_of actions perform t w = Ok t' w' /\ attribute_change t t'.
Proof.
  induction actions as [|action actions IH]; intros t w Hall Hel.
  - exists t, w. split; [reflexivity|apply attribute_change_refl].
  - inversion Hall as [|? ? Hact Hrest]; subst.
    assert (Hstep : exists t1 w1, perform action t w = Ok t1 w1).
    { destruct action as [a|k]; [apply setAttribute_total; assumption|].
      destruct t; [|discriminate]. eexists _, _; reflexivity. }
    destruct Hstep as (t1 & w1 & Hstep).
    pose proof (perform_writes _ _ _ _ _ Hstep) as (Hc1 & _).
    destruct (IH t1 w1 Hrest) as (t' & w' & Hrun & Hc2).
    { rewrite (attribute_change_is_element _ _ Hc1). exact Hel. }
    exists t', w'. split.
    + simpl. unfold bind. rewrite Hstep. exact Hrun.
    + eapply attribute_change_trans; eassumption.
Qed.

Lemma patchAttributes_total tag (children : list HtmlF) events registered previousAttributes
    tag' (children' : list HtmlF) events' registered' nextAttributes t w :
  is_element t = true -> Forall (fun a => applicable a = true) nextAttributes ->
  exists t' w',
    patchAttributes (Node tag children events registered previousAttributes)
                    (Node tag' children' events' registered' nextAttributes) t w
      = Ok t' w' /\
    attribute_change t t'.
Proof.
  intros Hel Happ. rewrite patchAttributes_reconciliation. apply plan_total; [|exact Hel].
  apply List.Forall_forall. intros [a|k] Hin; [|exact I].
  apply reconciliation_apply in Hin as (Ha & _). rewrite List.Forall_forall in Happ. auto.
Qed.

Lemma replace_with_built_total next tree w :
  all_applicable next ->
  exists next' built w',
    replace_with_built next tree w
      = Ok (mkPatched next' tree (Some built) (mkStatus 1 0 0 0)) w' /\
    shape built = skeleton next.
Proof.
  intros Happ. destruct (build_total next w Happ) as (next' & built & w1 & Hbuild & Hshape).
  exists next', built, (mkWorld (nextClosure w1) (calls w1 ++ [ReplaceWith]) (console w1)).
  split; [|exact Hshape]. unfold replace_with_built.
  rewrite (bind_eq _ _ _ _ _ Hbuild). reflexivity.
Qed.

Lemma patch_children_converges (rest : list HtmlF) :
  Forall patch_converges_on rest -> every all_applicable rest ->
  forall i (pcs : list HtmlF) done live tree status w,
    is_element tree = true -> childNodes tree = done ++ live -> length done = i ->
    map shape live = map skeleton (drop i pcs) ->
    exists rest' new status' w',
      patch_children patch pcs i rest tree status w
        = Ok (rest', set_childNodes (done ++ new ++ drop (length rest) live) tree, status') w' /\
      map shape new = map skeleton rest.
Proof.
  induction rest as [|c rest IH];
    intros Hall Happ i pcs done live tree status w Hel Hcs Hi Hmap.
  - exists [], [], status, w. simpl. rewrite drop_0, <- Hcs, set_childNodes_same.
    split; reflexivity.
  - inversion Hall as [|? ? Hc Hrest]; subst. destruct Happ as [Hac Har].
    specialize (IH Hrest Har). cbn [patch_children].
    destruct live as [|l0 live'].
    + assert (Hnone : childNodes tree !! length done = None).
      { apply lookup_ge_None. rewrite Hcs, app_nil_r. lia. }
      rewrite Hnone.
      destruct (build_total c w Hac) as (c' & built & w1 & Hbuild & Hshape).
      assert (Hprest : drop (length done) pcs = []).
      { destruct (drop (length done) pcs); [reflexivity|discriminate]. }
      destruct (IH (S (length done)) pcs (done ++ [built]) []
                   (set_childNodes (childNodes tree ++ [built]) tree)
                   (mkStatus (replaced status) (patched status) (removed status)
                             (S (added status)))
                   (mkWorld (nextClosure w1) (calls w1 ++ [AppendChild]) (console w1)))
        as (rest' & new & status' & w' & Hloop & Hnew).
      { rewrite is_element_set_childNodes. exact Hel. }
      { rewrite childNodes_set_childNodes by exact Hel. rewrite Hcs, !app_nil_r. reflexivity. }
      { rewrite length_app. simpl. lia. }
      { rewrite drop_ge; [reflexivity|].
        apply (f_equal length) in Hprest. rewrite length_drop in Hprest. simpl in Hprest. lia. }
      exists (c' :: rest'), (built :: new), status', w'. split; [|simpl; congruence].
      unfold bind at 1. unfold bind at 1. rewrite Hbuild. cbv beta iota.
      assert (Happend : appendChild tree built w1
                = Ok (set_childNodes (childNodes tree ++ [built]) tree)
                     (mkWorld (nextClosure w1) (calls w1 ++ [AppendChild]) (console w1))).
      { destruct tree; [reflexivity|discriminate]. }
      unfold bind at 1. rewrite Happend. unfold ret at 1. cbv beta iota.
      unfold bind. rewrite Hloop. unfold ret.
      rewrite set_childNodes_twice, drop_nil, !app_nil_r, <- app_assoc. reflexivity.
    + destruct (drop (length done) pcs) as [|p0 ps] eqn:Hdrop; [discriminate|].
      simpl in Hmap. injection Hmap as Hshape0 Hmap.
      assert (Hlive : childNodes tree !! length done = Some l0).
      { rewrite Hcs. apply list_lookup_middle. reflexivity. }
      assert (Hprev : pcs !! length done = Some p0).
      { rewrite <- (Nat.add_0_r (length done)), <- lookup_drop, Hdrop. reflexivity. }
      rewrite Hlive, Hprev.
      destruct (Hc p0 l0 w Hshape0 Hac) as (p & w1 & Hp & Hshape & _).
      assert (Hchild : set_child (length done) (in_place p) tree
                       = set_childNodes (done ++ in_place p :: live') tree).
      { unfold set_child. rewrite Hcs, insert_app_r_alt by lia.
        rewrite Nat.sub_diag. reflexivity. }
      destruct (IH (S (length done)) pcs (done ++ [in_place p]) live'
                   (set_child (length done) (in_place p) tree)
                   (add_status status (p_status p)) w1)
        as (rest' & new & status' & w' & Hloop & Hnew).
      { unfold set_child. rewrite is_element_set_childNodes. exact Hel. }
      { rewrite Hchild, childNodes_set_childNodes by exact Hel.
        rewrite <- app_assoc. reflexivity. }
      { rewrite length_app. simpl. lia. }
      { rewrite (drop_S _ _ _ Hprev) in Hdrop. injection Hdrop as Hps.
        rewrite Hps. exact Hmap. }
      exists (p_nextView p :: rest'), (in_place p :: new), status', w'.
      split; [|simpl; congruence].
      unfold bind at 1. unfold bind at 1. rewrite Hp. unfold ret at 1. cbv beta iota.
      unfold bind. rewrite Hloop. unfold ret.
      rewrite Hchild, set_childNodes_twice, <- app_assoc. reflexivity.
Qed.

Lemma patch_converges_all (next : HtmlF) : patch_converges_on next.
Proof.
  induction next as [content|tag children events registered attributes IH]
    using Html_rect_children; intros prev tree w Hshape Happ.
  - destruct prev as [ptag pchildren pevents pregistered pattributes|pcontent].
    + destruct (replace_with_built_total (Text content) tree w Happ)
        as (next' & built & w' & Hrun & Hbuilt).
      eexists _, w'. split; [exact Hrun|]. simpl.
      split; [exact Hbuilt|]. split; [discriminate|]. intros _. split; eauto.
    + cbn [patch same_root]. destruct (String.eqb pcontent content) eqn:Hsame.
      * apply String.eqb_eq in Hsame. subst pcontent.
        eexists _, w. split; [reflexivity|]. simpl.
        split; [exact Hshape|]. split; [reflexivity|discriminate].
      * destruct (replace_with_built_total (Text content) tree w Happ)
          as (next' & built & w' & Hrun & Hbuilt).
        eexists _, w'. split; [exact Hrun|]. simpl.
        split; [exact Hbuilt|]. split; [discriminate|]. intros _. split; eauto.
  - destruct prev as [ptag pchildren pevents pregistered pattributes|pcontent].
    2:{ destruct (replace_with_built_total
                    (Node tag children events registered attributes) tree w Happ)
          as (next' & built & w' & Hrun & Hbuilt).
        eexists _, w'. split; [exact Hrun|]. cbn [in_place p_replacement p_currentTree].
        split; [exact Hbuilt|]. split; [discriminate|]. intros _. split; eauto. }
    cbn [same_root]. destruct (Tag_eqb ptag tag) eqn:Htag.
    2:{ destruct (replace_with_built_total
                    (Node tag children events registered attributes) tree w Happ)
          as (next' & built & w' & Hrun & Hbuilt).
        eexists _, w'. split; [cbn [patch]; rewrite Htag; exact Hrun|].
        cbn [in_place p_replacement p_currentTree].
        split; [exact Hbuilt|]. split; [discriminate|]. intros _. split; eauto. }
    destruct Happ as [Hattrs Hevery].
    destruct tree as [tn a0 p0 c0 ls0 ts|]; [|discriminate].
    simpl in Hshape. injection Hshape as Htn Hts.
    pose proof (patchEvents_nodes ptag pchildren pevents pregistered pattributes
                  tag children events registered attributes
                  (HTMLElement tn a0 p0 c0 ls0 ts) w) as Hevents.
    match type of Hevents with _ = Ok (?pv, ?t1) ?w1 =>
      destruct (patchAttributes_total ptag pchildren pevents pregistered pattributes
                  tag children events registered attributes t1 w1 eq_refl Hattrs)
        as (t2 & w2 & Hpa & Hchange)
    end.
    simpl in Hchange. inversion Hchange as [? ? ? ? a2 p2 c2 ? ?|]; subst.
    match type of Hpa with _ = Ok ?t2 _ =>
      destruct (patch_children_converges children IH Hevery 0 pchildren [] ts t2
                  (mkStatus 0 0 0 0) w2 eq_refl eq_refl eq_refl)
        as (rest' & new & status' & w3 & Hloop & Hnew); [rewrite drop_0; exact Hts|]
    end.
    assert (Hlen : length new = length children).
    { apply (f_equal length) in Hnew. rewrite !length_map in Hnew. exact Hnew. }
    eexists _, _. split.
    { rewrite patch_nodes_eq by exact Htag.
      rewrite (bind_eq _ _ _ _ _ Hevents). cbn [fst snd].
      rewrite (bind_eq _ _ _ _ _ Hpa).
      rewrite (bind_eq _ _ _ _ _ Hloop). cbn [fst snd].
      rewrite (bind_eq _ _ _ _ _ (remove_excess_spec _ _ _ _ _ eq_refl)). reflexivity. }
    cbn [in_place p_replacement p_currentTree set_childNodes childNodes app fst snd].
    rewrite <- Hlen, take_app_length. cbn [shape skeleton]. rewrite Hnew.
    apply Tag_eqb_eq in Htag. subst ptag.
    split; [reflexivity|]. split; [reflexivity|discriminate].
Qed.


End Further.

(** ** Hydration against building *)

Section Rehydration.

Context {NativeEvent message : Type}.
Abbreviation HtmlR := (Html NativeEvent message).
Abbreviation TreeR := (Tree NativeEvent message).






End Rehydration.

(** ** Plain attributes: the live tree is the rendering of the view *)

Section Exact.

Context {NativeEvent message : Type}.
Abbreviation HtmlE := (Html NativeEvent message).
Abbreviation TreeE := (Tree NativeEvent message).












(** *** Whole trees *)











End Exact.

(** ** The dispatch loop of a program with plain views *)

Section ExactLoop.

Context {NativeEvent message appModel : Type}.
Implicit Types (program : Program NativeEvent message appModel)
               (rt : Runtime NativeEvent message appModel)
               (w : World).






End ExactLoop.

(** ** Classes and properties *)

Section Classes.

Context {NativeEvent message : Type}.
Abbreviation TreeC := (Tree NativeEvent message).
Abbreviation HtmlC := (Html NativeEvent message).

Lemma add_tokens_In tokens : forall set x,
  In x (add_tokens tokens set) <-> In x set \/ In x tokens.
Proof.
  induction tokens as [|token tokens IH]; intros set x; simpl; [tauto|].
  rewrite IH. destruct (includes set token) eqn:Hinc.
  - apply includes_In in Hinc. split; [tauto|]. intros [H|[<-|H]]; auto.
  - rewrite in_app_iff. simpl. tauto.
Qed.

Lemma add_tokens_extends tokens : forall set,
  exists extra, add_tokens tokens set = set ++ extra.
Proof.
  induction tokens as [|token tokens IH]; intros set; simpl.
  - exists []. rewrite app_nil_r. reflexivity.
  - destruct (includes set token); [apply IH|].
    destruct (IH (set ++ [token])) as (extra & ->).
    exists (token :: extra). rewrite <- app_assoc. reflexivity.
Qed.

Lemma add_tokens_NoDup tokens : forall set,
  List.NoDup set -> List.NoDup (add_tokens tokens set).
Proof.
  induction tokens as [|token tokens IH]; intros set Hnd; simpl; [exact Hnd|].
  apply IH. destruct (includes set token) eqn:Hinc; [exact Hnd|].
  apply List.NoDup_app; [exact Hnd|repeat constructor; intros []|].
  intros x Hx [<-|[]]. apply includes_In in Hx. congruence.
Qed.

Lemma classList_remove_Ok tn a p c ls cs token w :
  classList_remove (HTMLElement tn a p c ls cs : TreeC) token w
  = Ok (HTMLElement tn a p (List.filter (fun x => negb (String.eqb x token)) c) ls cs)
       (mkWorld (nextClosure w) (calls w ++ [ClassListRemove token]) (console w)).
Proof. reflexivity. Qed.

(** The loop over the live class list removes only classes that are not
    among [classes], and keeps attributes and properties. *)
Lemma prune_classes_spec steps : forall index classes (t : TreeC) w t' w',
  prune_classes steps index classes t w = Ok t' w' ->
  attrs_of t' = attrs_of t /\ props_of t' = props_of t /\
  (forall x, In x (classList_of t') -> In x (classList_of t)) /\
  (forall x, In x (classList_of t) -> includes classes x = true -> In x (classList_of t')).
Proof.
  induction steps as [|steps IH]; intros index classes t w t' w' H; simpl in H.
  - inv_ret H. auto.
  - destruct (classList_of t !! index) as [class_|]; [|inv_ret H; auto].
    destruct (includes classes class_) eqn:Hinc; cbn [negb] in H; [eapply IH; exact H|].
    inv_bind H. destruct t as [tn a p c ls cs|]; [|discriminate].
    rewrite classList_remove_Ok in Hrun. injection Hrun as <- <-.
    apply IH in H as (Ha & Hp & Hsub & Hkeep). simpl in *.
    split; [exact Ha|]. split; [exact Hp|]. split.
    + intros x Hx. apply Hsub, filter_In in Hx. tauto.
    + intros x Hx Hin. apply Hkeep; [|exact Hin]. apply filter_In. split; [exact Hx|].
      destruct (String.eqb x class_) eqn:Heq; [|reflexivity].
      apply String.eqb_eq in Heq. congruence.
Qed.

(** Nothing is removed when every class is among [classes]. *)
Lemma prune_classes_nothing steps : forall index classes (t : TreeC) w,
  Forall (fun x => includes classes x = true) (classList_of t) ->
  prune_classes steps index classes t w = Ok t w.
Proof.
  induction steps as [|steps IH]; intros index classes t w Hall; simpl; [reflexivity|].
  destruct (classList_of t !! index) as [class_|] eqn:Hlookup; [|reflexivity].
  rewrite List.Forall_forall in Hall.
  rewrite (Hall class_) by (apply list_elem_of_In; eapply list_elem_of_lookup_2; exact Hlookup).
  cbn [negb]. apply IH. apply List.Forall_forall. exact Hall.
Qed.

(** X10 -- [setAttribute] with a [class] attribute, when it completes:
    every piece of the value is a class of the element afterwards, every
    class it has afterwards is one it had or a piece of the value,
    attributes and properties are untouched; and when every class it had
    is a piece of the value (so on a new element), the classes are the
    ones it had followed by the new pieces, each once. *)
Theorem setAttribute_class_tokens (t : TreeC) v w t' w' :
  setAttribute t (StringAttribute "class" v) w = Ok t' w' ->
  (forall x, In x (split " " v) -> In x (classList_of t')) /\
  (forall x, In x (classList_of t') -> In x (classList_of t) \/ In x (split " " v)) /\
  attrs_of t' = attrs_of t /\ props_of t' = props_of t /\
  (Forall (fun x => In x (split " " v)) (classList_of t) ->
   classList_of t' = add_tokens (split " " v) (classList_of t)).
Proof.
  intros H. destruct t as [tn a p c ls cs|]; [|discriminate].
  unfold setAttribute in H. cbn [key] in H. rewrite String.eqb_refl in H.
  inv_bind H. unfold classList_add in Hrun.
  destruct (validate_tokens (split " " v)); [discriminate|]. injection Hrun as <- <-.
  pose proof (prune_classes_spec _ _ _ _ _ _ _ H) as (Ha & Hp & Hsub & Hkeep).
  cbn [classList_of attrs_of props_of] in *.
  split; [|split; [|split; [exact Ha|split; [exact Hp|]]]].
  - intros x Hx. apply Hkeep; [|apply includes_In; exact Hx].
    apply add_tokens_In. right. exact Hx.
  - intros x Hx. apply Hsub, add_tokens_In in Hx. exact Hx.
  - intros Hall. rewrite prune_classes_nothing in H; [inv_ret H; reflexivity|].
    cbn [classList_of]. apply List.Forall_forall. intros x Hx.
    apply includes_In. apply add_tokens_In in Hx as [Hx|Hx]; [|exact Hx].
    rewrite List.Forall_forall in Hall. auto.
Qed.

Lemma filter_prefix (c : string) : forall (l : list string) index,
  List.NoDup l -> l !! index = Some c ->
  take index (List.filter (fun x => negb (String.eqb x c)) l) = take index l.
Proof.
  induction l as [|x l IH]; intros index Hnd Hlookup; [discriminate|].
  destruct index as [|index]; [reflexivity|]. simpl in Hlookup.
  apply List.NoDup_cons_iff in Hnd as (Hx & Hnd).
  assert (Hne : String.eqb x c = false).
  { apply String.eqb_neq. intros ->. apply Hx, list_elem_of_In.
    eapply list_elem_of_lookup_2. exact Hlookup. }
  simpl. rewrite Hne. simpl. f_equal. apply IH; assumption.
Qed.

(** The loop never comes back to the indices it has passed. *)
Lemma prune_classes_prefix steps : forall index classes (t : TreeC) w t' w',
  List.NoDup (classList_of t) ->
  prune_classes steps index classes t w = Ok t' w' ->
  take index (classList_of t') = take index (classList_of t).
Proof.
  induction steps as [|steps IH]; intros index classes t w t' w' Hnd H; simpl in H.
  - inv_ret H. reflexivity.
  - destruct (classList_of t !! index) as [class_|] eqn:Hlookup; [|inv_ret H; reflexivity].
    assert (Hcut : forall l l' : list string,
               take (S index) l = take (S index) l' -> take index l = take index l').
    { intros l l' Heq. apply (f_equal (take index)) in Heq.
      rewrite !take_take in Heq. replace (index `min` S index) with index in Heq by lia.
      exact Heq. }
    destruct (includes classes class_); cbn [negb] in H.
    + apply Hcut. eapply IH; [exact Hnd|exact H].
    + inv_bind H. destruct t as [tn a p c ls cs|]; [|discriminate].
      rewrite classList_remove_Ok in Hrun. injection Hrun as <- <-.
      cbn [classList_of] in *.
      apply IH in H; [|cbn [classList_of]; apply List.NoDup_filter; exact Hnd].
      apply Hcut in H. rewrite H. cbn [classList_of]. apply filter_prefix; assumption.
Qed.

(** X11 -- the loop that drops stale classes skips the class that
    follows a dropped one: when the first class of an element is not a
    piece of the new value, the second class is still on the element
    after [setAttribute], whether or not it is a piece of the value. *)
Theorem stale_class_survives tn a p stale following others ls cs v w :
  NoDup (stale :: following :: others) ->
  applicable (StringAttribute "class" v) = true ->
  includes (split " " v) stale = false ->
  exists t' w' classes,
    setAttribute (HTMLElement tn a p (stale :: following :: others) ls cs : TreeC)
                 (StringAttribute "class" v) w = Ok t' w' /\
    classList_of t' = following :: classes.
Proof.
  intros Hnd Happ Hstale. apply NoDup_ListNoDup in Hnd.
  destruct (setAttribute_total (HTMLElement tn a p (stale :: following :: others) ls cs)
              (StringAttribute "class" v) w eq_refl Happ) as (t' & w' & Hset).
  exists t', w'. pose proof Hset as H.
  unfold setAttribute in H. cbn [key] in H. rewrite String.eqb_refl in H.
  inv_bind H. unfold classList_add in Hrun.
  destruct (validate_tokens (split " " v)); [discriminate|]. injection Hrun as <- <-.
  cbn [classList_of] in H.
  destruct (add_tokens_extends (split " " v) (stale :: following :: others))
    as (extra & Hadded).
  pose proof (add_tokens_NoDup (split " " v) _ Hnd) as Hnd'.
  rewrite Hadded in H, Hnd'.
  change (length ((stale :: following :: others) ++ extra))
    with (S (length ((following :: others) ++ extra))) in H.
  cbn [prune_classes classList_of] in H.
  change (((stale :: following :: others) ++ extra) !! 0) with (Some stale) in H.
  cbv beta iota in H. rewrite Hstale in H. cbn [negb] in H.
  rewrite (bind_eq _ _ _ _ _ (classList_remove_Ok _ _ _ _ _ _ _ _)) in H.
  assert (Hne : String.eqb following stale = false).
  { apply String.eqb_neq. intros ->. apply List.NoDup_cons_iff in Hnd as (Hin & _).
    apply Hin. left. reflexivity. }
  apply prune_classes_prefix in H.
  - cbn [classList_of] in H. simpl in H.
    rewrite String.eqb_refl, Hne in H. simpl in H.
    destruct (classList_of t') as [|c0 classes]; [discriminate|].
    simpl in H. injection H as ->. exists classes. split; [exact Hset|reflexivity].
  - cbn [classList_of]. apply List.NoDup_filter. exact Hnd'.
Qed.




End Classes.

(** ** The dispatch loop and the shape of the tree *)

Section FurtherLoop.

Context {NativeEvent message appModel : Type}.
Implicit Types (program : Program NativeEvent message appModel)
               (rt : Runtime NativeEvent message appModel)
               (w : World).

Lemma skeleton_description (h : Html NativeEvent message) :
  skeleton (description h) = skeleton h.
Proof.
  induction h as [content|tag children events registered attributes IH]
    using Html_rect_children; simpl; [reflexivity|].
  f_equal. rewrite map_map. apply map_ext_Forall. exact IH.
Qed.

Lemma same_tag_root (a b : Html NativeEvent message) tag children events registered attributes
    children' events' registered' attributes' :
  description a = description (Node tag children events registered attributes) ->
  b = Node tag children' events' registered' attributes' ->
  same_root a b = true.
Proof.
  intros Ha ->. destruct a as [atag ? ? ? ?|]; [|discriminate].
  simpl in Ha. injection Ha as -> _ _ _. apply Tag_eqb_refl.
Qed.

(** One dispatch of a steady program on a tree that has the shape of
    the previous view. *)
Lemma steady_dispatch program tag rt msg w tree :
  steady program tag ->
  currentTree rt = object tree -> displaced rt = None ->
  shape tree = skeleton (previousView rt) ->
  description (previousView rt) = description (view program (currentModel rt)) ->
  exists rt' w' tree',
    listener_of program rt msg w = Ok rt' w' /\
    currentModel rt' = fst (update program msg (currentModel rt)) /\
    currentTree rt' = object tree' /\ displaced rt' = None /\
    shape tree' = skeleton (previousView rt') /\
    description (previousView rt') = description (view program (currentModel rt')).
Proof.
  intros Hsteady Htree Hdisplaced Hshape Hdesc. unfold listener_of. rewrite Htree.
  destruct (update program msg (currentModel rt)) as [m' deferred] eqn:Hupdate.
  destruct (Hsteady m') as (Happ & children' & events' & registered' & attributes' & Hview').
  destruct (Hsteady (currentModel rt)) as (_ & children & events & registered & attributes & Hview).
  destruct (patch_converges_all (view program m') (previousView rt) tree w Hshape Happ)
    as (p & w1 & Hp & Hconv & Hsame & _).
  pose proof (patch_description _ _ _ _ _ _ Hp) as Hpdesc.
  rewrite Hview in Hdesc.
  specialize (Hsame (same_tag_root _ _ _ _ _ _ _ _ _ _ _ Hdesc Hview')).
  rewrite (bind_eq _ _ _ _ _ Hp). unfold bind. rewrite log_status_Ok. unfold ret.
  eexists _, _, (p_currentTree p). split; [reflexivity|]. simpl.
  rewrite Hdisplaced, Hsame. repeat split; try assumption.
  unfold in_place in Hconv. rewrite Hsame in Hconv.
  rewrite Hconv, <- skeleton_description, <- Hpdesc, skeleton_description. reflexivity.
Qed.

Lemma steady_deliver program tag msgs : forall rt w tree,
  steady program tag ->
  currentTree rt = object tree -> displaced rt = None ->
  shape tree = skeleton (previousView rt) ->
  description (previousView rt) = description (view program (currentModel rt)) ->
  exists rt' w' tree',
    deliver (listener_of program) msgs rt w = Ok rt' w' /\
    currentModel rt' = advance program msgs (currentModel rt) /\
    currentTree rt' = object tree' /\ displaced rt' = None /\
    shape tree' = skeleton (view program (currentModel rt')).
Proof.
  induction msgs as [|msg msgs IH]; intros rt w tree Hsteady Htree Hdisplaced Hshape Hdesc.
  - exists rt, w, tree. repeat split; try assumption.
    rewrite Hshape, <- skeleton_description, Hdesc, skeleton_description. reflexivity.
  - destruct (steady_dispatch program tag rt msg w tree Hsteady Htree Hdisplaced Hshape Hdesc)
      as (rt1 & w1 & tree1 & Hstep & Hm1 & Htree1 & Hdisplaced1 & Hshape1 & Hdesc1).
    destruct (IH rt1 w1 tree1 Hsteady Htree1 Hdisplaced1 Hshape1 Hdesc1)
      as (rt' & w' & tree' & Hrun & Hm' & Htree' & Hdisplaced' & Hshape').
    exists rt', w', tree'. split.
    + simpl. rewrite (bind_eq _ _ _ _ _ Hstep). exact Hrun.
    + repeat split; try assumption. rewrite Hm'. simpl. rewrite Hm1. reflexivity.
Qed.

Lemma steady_run program tag root w :
  steady program tag ->
  exists rp rt0 w0,
    runProgram program (Some root) w = Ok (rp, rt0) w0 /\
    forall msgs, exists rt w' tree,
      deliver (send rp) msgs rt0 w0 = Ok rt w' /\
      currentModel rt = advance program msgs (initialModel program) /\
      currentTree rt = object tree /\ displaced rt = None /\
      shape tree = skeleton (view program (currentModel rt)).
Proof.
  intros Hsteady. destruct (Hsteady (initialModel program)) as (Happ & _).
  destruct (build_total (view program (initialModel program)) w Happ)
    as (pv & t0 & w1 & Hbuild & Hshape).
  eexists _, _, _. split.
  { unfold runProgram. rewrite (bind_eq _ _ _ _ _ Hbuild). reflexivity. }
  intros msgs. simpl send.
  apply (steady_deliver program tag msgs
           (mkRuntime (initialModel program) pv (object t0) None [])
           (mkWorld (nextClosure w1) (calls w1 ++ [ReplaceChildren]) (console w1))
           t0 Hsteady); try reflexivity.
  - simpl. rewrite Hshape, <- skeleton_description,
      <- (build_description _ _ _ _ _ Hbuild), skeleton_description. reflexivity.
  - simpl. eapply build_description; exact Hbuild.
Qed.


(** Once the document holds a replacement for the root, it keeps it. *)
Lemma deliver_displaced program msgs : forall rt w rt' w' d,
  displaced rt = Some d ->
  deliver (listener_of program) msgs rt w = Ok rt' w' ->
  displaced rt' = Some d.
Proof.
  induction msgs as [|msg msgs IH]; intros rt w rt' w' d Hd H; simpl in H.
  - inv_ret H. exact Hd.
  - inv_bind H. eapply IH; [|exact H]. unfold listener_of in Hrun.
    destruct (currentTree rt) as [| |tree].
    + inv_ret Hrun. exact Hd.
    + destruct (update program msg (currentModel rt)) as [m' deferred].
      inv_bind Hrun. inv_bind Hrun. inv_ret Hrun. exact Hd.
    + destruct (update program msg (currentModel rt)) as [m' deferred].
      inv_bind Hrun. inv_bind Hrun. inv_ret Hrun. simpl. rewrite Hd. reflexivity.
Qed.

Lemma patch_replaces (prev next : Html NativeEvent message) tree w :
  same_root prev next = false ->
  patch prev next tree w = replace_with_built next tree w.
Proof.
  destruct prev as [ptag ? ? ? ?|pcontent], next as [tag ? ? ? ?|content];
    cbn [same_root patch]; intros Hroot; try reflexivity; rewrite Hroot; reflexivity.
Qed.

(** X4 -- a dispatch whose next view differs from the previous one in
    kind, in tag, or as a text: when it completes, the variable
    [currentTree] still holds the node it held, unchanged, although the
    document now holds a freshly built node in its place (with the tags,
    text and nesting of the new view); and whatever is dispatched
    afterwards, the document keeps that very node, because every later
    patch works on, or calls [replaceWith] on, the node that was taken
    out. *)
Theorem root_replacement_strands_the_runtime program rt msg w rt' w' tree :
  currentTree rt = object tree -> displaced rt = None ->
  same_root (previousView rt)
            (view program (fst (update program msg (currentModel rt)))) = false ->
  listener_of program rt msg w = Ok rt' w' ->
  currentTree rt' = object tree /\
  exists built,
    displaced rt' = Some built /\
    shape built = skeleton (view program (currentModel rt')) /\
    forall msgs rt'' w'',
      deliver (listener_of program) msgs rt' w' = Ok rt'' w'' ->
      displaced rt'' = Some built.
Proof.
  intros Htree Hdisplaced Hroot H. unfold listener_of in H. rewrite Htree in H.
  destruct (update program msg (currentModel rt)) as [m' deferred]. simpl in Hroot.
  inv_bind H. rewrite (patch_replaces _ _ _ _ Hroot) in Hrun.
  unfold replace_with_built in Hrun. inv_bind Hrun. destruct r0 as [next' built].
  inv_bind Hrun. inv_ret Hrun. inv_bind H. inv_ret H. simpl. rewrite Hdisplaced.
  split; [reflexivity|]. exists built. split; [reflexivity|]. split.
  - eapply build_shape. exact Hrun0.
  - intros msgs rt'' w'' Hlater. eapply deliver_displaced; [|exact Hlater]. reflexivity.
Qed.


End FurtherLoop.

(** ** The name collector *)

Lemma viewName_applicable name isChecked :
  all_applicable (App.viewName name isChecked).
Proof. destruct isChecked; simpl; repeat constructor. Qed.

Lemma app_steady : steady App.program TagDiv.
Proof.
  intros m. split; [|eexists _, _, _, _; reflexivity].
  cbn [view App.program App.view all_applicable every div node].
  split; [constructor|]. split; [simpl; repeat constructor|].
  split; [simpl; repeat constructor|]. split; [|exact I].
  unfold App.viewNames. cbn [all_applicable div node]. split; [constructor|].
  apply every_Forall, Forall_app. split.
  - apply Forall_fmap, List.Forall_forall. intros name _. apply viewName_applicable.
  - repeat constructor.
Qed.

(** X14 -- the name collector, started by [runProgram] on a root: it
    starts, and whatever messages are sent, in whatever order, no
    dispatch throws; the tree the runtime holds stays the one in the
    document and has the tags, text and nesting of the view of the
    current model. *)
Theorem name_collector_never_throws root w :
  exists rp rt0 w0,
    runProgram App.program (Some root) w = Ok (rp, rt0) w0 /\
    forall msgs, exists rt w' tree,
      deliver (send rp) msgs rt0 w0 = Ok rt w' /\
      currentModel rt = advance App.program msgs App.initialModel /\
      currentTree rt = object tree /\ displaced rt = None /\
      shape tree = skeleton (App.view (currentModel rt)).
Proof. exact (steady_run App.program TagDiv root w app_steady). Qed.

(** ** Rendering as a string *)

Section RenderingProperties.

Context {NativeEvent message : Type}.

Lemma indexOf_In (s : string) (c : ascii) :
  (-1 <= indexOf s c)%Z /\
  ((0 <= indexOf s c)%Z <-> In c (String.list_ascii_of_string s)).
Proof.
  induction s as [|x s (Hlow & Hin)]; simpl.
  - split; [lia|]. split; [lia|tauto].
  - destruct (Ascii.eqb x c) eqn:Hx.
    + apply Ascii.eqb_eq in Hx. split; [lia|]. split; [auto|lia].
    + apply Ascii.eqb_neq in Hx. destruct (indexOf s c <? 0)%Z eqn:Hneg.
      * apply Z.ltb_lt in Hneg. split; [lia|]. split; [lia|].
        intros [Heq|Hc]; [contradiction|]. apply Hin in Hc. lia.
      * apply Z.ltb_ge in Hneg. split; [lia|]. split; [|lia].
        intros _. right. apply Hin. lia.
Qed.

(** X15 -- how [renderAttributeAsString] quotes a string value: in
    single quotes when the value has a double quote after its first
    character and does not start with one; in double quotes when it has
    no double quote, and also when it starts with a double quote, in
    which case the value ends the quoting it is put in. *)
Theorem renderAttributeAsString_quotes k v :
  (~ In double_quote (String.list_ascii_of_string v) ->
   renderAttributeAsString (StringAttribute k v) = k +:+ "=" +:+ between double_quote v) /\
  (forall rest, v = String double_quote rest ->
   renderAttributeAsString (StringAttribute k v) = k +:+ "=" +:+ between double_quote v) /\
  (forall c rest, v = String c rest -> c <> double_quote ->
   In double_quote (String.list_ascii_of_string rest) ->
   renderAttributeAsString (StringAttribute k v) = k +:+ "='" +:+ v +:+ "'").
Proof.
  unfold renderAttributeAsString. split; [|split].
  - intros Hnone. destruct (indexOf_In v double_quote) as (_ & Hin).
    destruct (0 <? indexOf v double_quote)%Z eqn:Hpos; [|reflexivity].
    apply Z.ltb_lt in Hpos. exfalso. apply Hnone, Hin. lia.
  - intros rest ->. cbn [indexOf]. rewrite Ascii.eqb_refl. reflexivity.
  - intros c rest -> Hc Hin. cbn [indexOf].
    apply Ascii.eqb_neq in Hc. rewrite Hc.
    destruct (indexOf_In rest double_quote) as (_ & Hrest). apply Hrest in Hin.
    destruct (indexOf rest double_quote <? 0)%Z eqn:Hneg; [apply Z.ltb_lt in Hneg; lia|].
    destruct (0 <? indexOf rest double_quote + 1)%Z eqn:Hpos; [reflexivity|].
    apply Z.ltb_ge in Hpos. lia.
Qed.

Lemma append_assoc (a b c : string) : (a +:+ b) +:+ c = a +:+ (b +:+ c).
Proof.
  induction a as [|x a IH]; [reflexivity|].
  change (String x ((a +:+ b) +:+ c) = String x (a +:+ (b +:+ c))). f_equal. exact IH.
Qed.

Lemma concat_texts (a b : string) (rest : list string) :
  String.concat EmptyString ((a +:+ b) :: rest)
  = String.concat EmptyString (a :: b :: rest).
Proof.
  destruct rest as [|r rest]; simpl; [reflexivity|]. rewrite append_assoc. reflexivity.
Qed.

(** X16 -- [renderAsString] does not keep text children apart: an
    element whose first two children are texts is rendered as the
    element with the one text made of the two, so the string does not
    tell how many child nodes the view has. *)
Theorem renderAsString_joins_texts tag a b (rest : list (Html NativeEvent message))
    events registered attributes :
  renderAsString (Node tag (Text a :: Text b :: rest) events registered attributes)
  = renderAsString (Node tag (Text (a +:+ b) :: rest) events registered attributes).
Proof.
  cbn [renderAsString map]. rewrite concat_texts. reflexivity.
Qed.

End RenderingProperties.

(** ** The update function of the name collector *)

Lemma filter_differs_absent name (l : list string) :
  includes l name = false -> List.filter (fun n => App.differs n name) l = l.
Proof.
  induction l as [|x l IH]; simpl; [reflexivity|]. intros H.
  apply Bool.orb_false_iff in H as (Hx & Hl). unfold App.differs at 1.
  rewrite String.eqb_sym, Hx. simpl. rewrite IH by exact Hl. reflexivity.
Qed.

Lemma includes_filter_differs name (l : list string) :
  includes (List.filter (fun n => App.differs n name) l) name = false.
Proof.
  induction l as [|x l IH]; simpl; [reflexivity|]. unfold App.differs at 1.
  destruct (String.eqb x name) eqn:Hx; simpl; [exact IH|].
  rewrite String.eqb_sym, Hx. exact IH.
Qed.

Lemma includes_last (l : list string) name : includes (l ++ [name]) name = true.
Proof. apply includes_In, in_or_app. right. left. reflexivity. Qed.

(** X17 -- [Check] twice for the same name: when the name was not
    checked, the model is back to what it was; when it was checked, the
    names, the current name and the set of checked names are what they
    were, the name now being the last of the checked names. *)
Theorem check_twice name (m : App.Model) :
  let m2 := fst (App.update (App.Check name) (fst (App.update (App.Check name) m))) in
  (includes (App.checkedNames m) name = false -> m2 = m) /\
  (includes (App.checkedNames m) name = true ->
   App.currentName m2 = App.currentName m /\ App.names m2 = App.names m /\
   App.checkedNames m2
   = List.filter (fun n => App.differs n name) (App.checkedNames m) ++ [name]).
Proof.
  destruct m as [current names checked]. cbn zeta.
  split; intros H; cbn [App.checkedNames] in H.
  - unfold App.update. cbn [App.checkedNames]. rewrite H. cbn [negb fst App.checkedNames].
    rewrite includes_last. cbn [negb fst App.currentName App.names App.checkedNames].
    f_equal. rewrite List.filter_app. simpl. unfold App.differs at 2.
    rewrite String.eqb_refl. simpl. rewrite app_nil_r. apply filter_differs_absent. exact H.
  - unfold App.update. cbn [App.checkedNames]. rewrite H. cbn [negb fst App.checkedNames].
    rewrite includes_filter_differs. cbn [negb fst App.currentName App.names App.checkedNames].
    auto.
Qed.

(** X18 -- [AddName] and [Click] check every name: after either, the
    checked names are the names, whatever had been unchecked, and the
    list part of the view shows every name as checked. *)
Theorem adding_checks_every_name (message : App.Message) (m : App.Model) :
  (message = App.Click \/ exists name, message = App.AddName name) ->
  let m' := fst (App.update message m) in
  App.checkedNames m' = App.names m' /\
  exists summary,
    App.viewNames m'
    = div (map (fun name => App.viewName name true) (App.names m') ++ [summary]) [] [].
Proof.
  intros Hmessage m'.
  assert (Hall : App.checkedNames m' = App.names m').
  { destruct Hmessage as [->|[name ->]]; reflexivity. }
  split; [exact Hall|]. eexists. unfold App.viewNames. rewrite Hall. f_equal. f_equal.
  apply map_ext_in. intros name Hin. apply includes_In in Hin. rewrite Hin. reflexivity.
Qed.

(** ** The further statements on concrete views *)

Section FurtherConcrete.

Import Scenario.

Ltac distinct := apply NoDup_ListNoDup; repeat constructor; simpl; intuition discriminate.






Lemma toggled :
  listener_of Cases.toggle Cases.toggle_started tt clean
  = Ok Cases.toggled_once Cases.toggled_world.
Proof. vm_compute. reflexivity. Qed.

(** X4, tried on the program whose view is a [div], then a text: after
    the first message the runtime still holds the [div]; the document
    holds the text node, and keeps it after a second message. *)
Lemma root_replacement_strands_the_runtime_witness :
  listener_of Cases.toggle Cases.toggle_started tt clean
    = Ok Cases.toggled_once Cases.toggled_world /\
  currentTree Cases.toggled_once = object Cases.off_tree /\
  exists built,
    displaced Cases.toggled_once = Some built /\
    forall rt'' w'',
      deliver (listener_of Cases.toggle) [tt] Cases.toggled_once Cases.toggled_world
        = Ok rt'' w'' ->
      displaced rt'' = Some built.
Proof.
  split; [exact toggled|].
  destruct (root_replacement_strands_the_runtime Cases.toggle Cases.toggle_started tt clean
              Cases.toggled_once Cases.toggled_world Cases.off_tree
              eq_refl eq_refl eq_refl toggled)
    as (Htree & built & Hbuilt & _ & Hlater).
  split; [exact Htree|]. exists built. split; [exact Hbuilt|]. exact (Hlater [tt]).
Defined.







Lemma classes_replaced :
  setAttribute Cases.two_classes (StringAttribute "class" "new") clean
  = Ok (HTMLElement "DIV" ∅ ∅ ["older"; "new"] [] [])
       (mkWorld 0 [ClassListAdd ["new"]; ClassListRemove "old"] []).
Proof. vm_compute. reflexivity. Qed.

(** X10, tried on an element with the classes [old] and [older] that
    is given the class [new]. *)
Lemma setAttribute_class_tokens_witness :
  setAttribute Cases.two_classes (StringAttribute "class" "new") clean
    = Ok (HTMLElement "DIV" ∅ ∅ ["older"; "new"] [] [])
         (mkWorld 0 [ClassListAdd ["new"]; ClassListRemove "old"] []) /\
  In "new" (classList_of (HTMLElement "DIV" ∅ ∅ ["older"; "new"] [] [] : Live)).
Proof.
  split; [exact classes_replaced|].
  destruct (setAttribute_class_tokens Cases.two_classes "new" clean _ _ classes_replaced)
    as (Hall & _).
  apply Hall. left. reflexivity.
Defined.

(** X11, tried on the same element: [older] stays. *)
Lemma stale_class_survives_witness :
  includes (split " " "new") "old" = false /\
  includes (split " " "new") "older" = false /\
  exists t' w' classes,
    setAttribute Cases.two_classes (StringAttribute "class" "new") clean = Ok t' w' /\
    classList_of t' = "older" :: classes.
Proof.
  split; [reflexivity|]. split; [reflexivity|].
  apply (stale_class_survives "DIV" ∅ ∅ "old" "older" [] [] [] "new" clean).
  - distinct.
  - reflexivity.
  - reflexivity.
Defined.





(** X15, tried on a value that starts with a double quote. *)
Lemma renderAttributeAsString_quotes_witness :
  renderAttributeAsString (StringAttribute "title" (String double_quote "b"))
  = "title=" +:+ between double_quote (String double_quote "b").
Proof.
  exact (proj1 (proj2 (renderAttributeAsString_quotes "title" (String double_quote "b")))
           "b" eq_refl).
Defined.

(** X17, tried on a name that is not checked. *)
Lemma check_twice_witness :
  fst (App.update (App.Check "Ada")
         (fst (App.update (App.Check "Ada") (App.mkModel "" ["Ada"] []))))
  = App.mkModel "" ["Ada"] [].
Proof. exact (proj1 (check_twice "Ada" (App.mkModel "" ["Ada"] [])) eq_refl). Defined.

(** X18, tried on a model with one name, unchecked. *)
Lemma adding_checks_every_name_witness :
  App.checkedNames (fst (App.update (App.AddName "Bo") (App.mkModel "" ["Ada"] [])))
  = ["Ada"; "Bo"].
Proof.
  exact (proj1 (adding_checks_every_name (App.AddName "Bo") (App.mkModel "" ["Ada"] [])
                  (or_intror (ex_intro _ "Bo" eq_refl)))).
Defined.

End FurtherConcrete.
